(** * vinskiyparser: the resilient fetch-and-traverse engine

    A shallow embedding of the retry policy ([utils.RetryManager]), the bounded
    TTL cache ([utils.MemoryCache]), the fetcher
    ([utils.OptimizedHttpClient]), the request metrics
    ([models.PerformanceMetrics]) and the page-by-page traversals of
    [vinskiy_parser.VinskiyForumParser], followed by the properties of the
    specification that concern them.

    Conventions of the embedding.
    - Python [int] is [Z]; counters that start at 0 and are only ever
      incremented (the request metrics) are [N].
    - Python [float] is idealised as the rationals [Q]: the rounding of IEEE
      doubles is not modelled, and equalities between computed delays are
      therefore stated with [==] (equality of rationals).  The one operation
      of the modelled code that leaves the range of the doubles on inputs it
      can meet, the power of the exponential backoff, raises
      [OverflowError] as Python's [float.__pow__] does.
    - [time.time()] reads a simulated clock; [random.uniform] reads a draw
      supplied by the environment.
    - A Python call that may raise returns an [outcome]; only exceptions
      derived from [Exception] are modelled ([KeyboardInterrupt] is an
      asynchronous signal of the host, outside the functions' own behaviour).
    - A [collections.OrderedDict] is an association list in dictionary order
      (oldest entry first). *)

From Stdlib Require Import List String ZArith NArith QArith Qminmax Qabs Lia Lqa Bool.
Import ListNotations.

Set Implicit Arguments.

(* ================================================================== *)
(** * Python preliminaries *)
(* ================================================================== *)

Module Py.

(** The exception classes that occur in the modelled code.  The classes of
    [models.py] carry the reason they were raised for instead of a formatted
    message. *)
Inductive reason : Type :=
| ReasonTimeout (url : string)
| ReasonConnection (url : string)
| ReasonHttpStatus (status : Z) (url : string)
| ReasonUnexpected (url : string)
| ReasonWrapped.

Inductive exn : Type :=
| PageNotFoundError
| InvalidUrlError
| ContentExtractionError
| RetryableError (why : reason)
| NonRetryableError (why : reason)
| ConnectionError        (* the builtin class *)
| TimeoutError           (* the builtin class *)
| TypeError              (* [raise None] *)
| OverflowError          (* a float power out of the range of the doubles *)
| KeyError               (* [popitem] on an empty dictionary *)
| OtherException.        (* any other subclass of [Exception] *)

Inductive outcome (A : Type) : Type :=
| Return (a : A)
| Raise (e : exn).

Arguments Return {A} a.
Arguments Raise {A} e.

(** Truth value of an [Optional[str]]: [None] and the empty string are false. *)
Definition truthy_url (u : option string) : bool :=
  match u with
  | None => false
  | Some s => negb (String.eqb s EmptyString)
  end.

(** [base ** n] for a non-negative integer exponent. *)
Fixpoint pow (base : Q) (n : nat) : Q :=
  match n with
  | O => 1
  | S k => base * pow base k
  end.

(** The largest finite [float], [sys.float_info.max]. *)
Definition float_max : Q := inject_Z (2 ^ 1024 - 2 ^ 971).

(** [x ** n] for a float [x] and a non-negative integer [n]: a result
    beyond the largest double raises [OverflowError] (numerical result out
    of range); a result too small for a double is returned as it is. *)
Definition float_pow (x : Q) (n : nat) : outcome Q :=
  if Qle_bool (Qabs (pow x n)) float_max then Return (pow x n)
  else Raise OverflowError.

(** ** Dictionaries with string keys

    A [dict] or [collections.OrderedDict] in dictionary order: the oldest
    key first. *)
Section Dict.

Variable E : Type.

Definition dict : Type := list (string * E).

(** [key in d] / [d[key]] *)
Fixpoint od_lookup (key : string) (d : dict) : option E :=
  match d with
  | [] => None
  | (k, e) :: rest => if String.eqb k key then Some e else od_lookup key rest
  end.

(** [del d[key]] *)
Fixpoint od_delete (key : string) (d : dict) : dict :=
  match d with
  | [] => []
  | (k, e) :: rest =>
      if String.eqb k key then rest else (k, e) :: od_delete key rest
  end.

(** [d.move_to_end(key)] for a key that is present. *)
Definition od_move_to_end (key : string) (d : dict) : dict :=
  match od_lookup key d with
  | Some e => od_delete key d ++ [(key, e)]
  | None => d
  end.

(** [d[key] = entry]: an existing key keeps its position, a new key goes to
    the end. *)
Fixpoint od_setitem (key : string) (entry : E) (d : dict) : dict :=
  match d with
  | [] => [(key, entry)]
  | (k, e) :: rest =>
      if String.eqb k key then (k, entry) :: rest
      else (k, e) :: od_setitem key entry rest
  end.

(** [d.update(other)] *)
Definition od_update (d other : dict) : dict :=
  fold_left (fun acc kv => od_setitem (fst kv) (snd kv) acc) other d.

(** Keys of a dictionary are pairwise distinct. *)
Definition od_wf (d : dict) : Prop := NoDup (map fst d).

End Dict.

End Py.

Import Py.

(* ================================================================== *)
(** * config.py *)
(* ================================================================== *)

Module Config.

Inductive RetryStrategy : Type :=
| EXPONENTIAL_BACKOFF
| FIXED_DELAY
| LINEAR_BACKOFF.

Definition MAX_PAGES : Z := 50.
Definition DELAY_BETWEEN_REQUESTS : Q := 1.
Definition RETRY_MAX_ATTEMPTS : Z := 3.
Definition RETRY_STRATEGY : RetryStrategy := EXPONENTIAL_BACKOFF.
Definition RETRY_BASE_DELAY : Q := 1.
Definition RETRY_MAX_DELAY : Q := 30.
Definition RETRY_JITTER : bool := true.
Definition RETRY_BACKOFF_FACTOR : Q := 2.
Definition CACHE_TTL : Q := 300.
Definition CACHE_MAX_SIZE : Z := 1000.
Definition ENABLE_URL_CACHE : bool := true.
Definition ENABLE_ERROR_RECOVERY : bool := true.
Definition MAX_CONSECUTIVE_FAILURES : Z := 5.

End Config.

(* ================================================================== *)
(** * models.py *)
(* ================================================================== *)

Module Models.

(** ** RetryConfig *)

(** The [strategy] field is annotated [str] but [Config.get_retry_config]
    stores a member of the [RetryStrategy] enumeration in it; both kinds of
    value are kept apart because [==] against a string literal tells them
    apart. *)
Inductive strategy_value : Type :=
| StrategyName (name : string)
| StrategyMember (member : Config.RetryStrategy).

Record RetryConfig : Type := {
  max_attempts : Z;
  strategy : strategy_value;
  base_delay : Q;
  max_delay : Q;
  jitter : bool;
  backoff_factor : Q;
  retryable_exceptions : exn -> bool
}.

(** The default tuple [(PageNotFoundError, ConnectionError, TimeoutError,
    RetryableError)] as an [isinstance] test. *)
Definition default_retryable_exceptions (e : exn) : bool :=
  match e with
  | PageNotFoundError | ConnectionError | TimeoutError | RetryableError _ => true
  | _ => false
  end.

(** [strategy == name] for a string literal [name]. *)
Definition strategy_eq (s : strategy_value) (name : string) : bool :=
  match s with
  | StrategyName n => String.eqb n name
  | StrategyMember _ => false
  end.

(** [Config.get_retry_config()] *)
Definition get_retry_config : RetryConfig := {|
  max_attempts := Config.RETRY_MAX_ATTEMPTS;
  strategy := StrategyMember Config.RETRY_STRATEGY;
  base_delay := Config.RETRY_BASE_DELAY;
  max_delay := Config.RETRY_MAX_DELAY;
  jitter := Config.RETRY_JITTER;
  backoff_factor := Config.RETRY_BACKOFF_FACTOR;
  retryable_exceptions := default_retryable_exceptions
|}.

(** ** CacheEntry *)

Record CacheEntry (V : Type) : Type := {
  data : V;
  timestamp : Q;
  ttl : Q
}.

(** [CacheEntry.is_expired], with [now] the value of [time.time()]:
    [now - self.timestamp > self.ttl]. *)
Definition is_expired {V : Type} (now : Q) (entry : CacheEntry V) : bool :=
  negb (Qle_bool (now - timestamp entry) (ttl entry)).

(** ** PerformanceMetrics *)

Record PerformanceMetrics : Type := {
  total_requests : N;
  successful_requests : N;
  failed_requests : N;
  cached_requests : N;
  total_processing_time : Q;
  average_request_time : Q;
  retry_attempts : N
}.

(** [PerformanceMetrics()] with the default field values. *)
Definition fresh_metrics : PerformanceMetrics := {|
  total_requests := 0;
  successful_requests := 0;
  failed_requests := 0;
  cached_requests := 0;
  total_processing_time := 0;
  average_request_time := 0;
  retry_attempts := 0
|}.

(** [PerformanceMetrics.add_request].  The final division cannot fail:
    [total_requests] has just been incremented from a count. *)
Definition add_request (m : PerformanceMetrics) (success : bool)
    (processing_time : Q) (from_cache : bool) : PerformanceMetrics :=
  let total := (total_requests m + 1)%N in
  let time := total_processing_time m + processing_time in
  {| total_requests := total;
     successful_requests :=
       if success then (successful_requests m + 1)%N else successful_requests m;
     failed_requests :=
       if success then failed_requests m else (failed_requests m + 1)%N;
     cached_requests :=
       if from_cache then (cached_requests m + 1)%N else cached_requests m;
     total_processing_time := time;
     average_request_time := time / inject_Z (Z.of_N total);
     retry_attempts := retry_attempts m |}.

(** [PerformanceMetrics.add_retry] *)
Definition add_retry (m : PerformanceMetrics) : PerformanceMetrics :=
  {| total_requests := total_requests m;
     successful_requests := successful_requests m;
     failed_requests := failed_requests m;
     cached_requests := cached_requests m;
     total_processing_time := total_processing_time m;
     average_request_time := average_request_time m;
     retry_attempts := (retry_attempts m + 1)%N |}.

(** One recorded call of [add_request]: its three arguments. *)
Record request_call : Type := {
  call_success : bool;
  call_time : Q;
  call_from_cache : bool
}.

Definition add_requests (m : PerformanceMetrics) (calls : list request_call)
    : PerformanceMetrics :=
  fold_left
    (fun acc c => add_request acc (call_success c) (call_time c) (call_from_cache c))
    calls m.

End Models.

Import Models.

(* ================================================================== *)
(** * utils.py *)
(* ================================================================== *)

Module Utils.

Local Open Scope Q_scope.

(** ** RetryManager._calculate_delay *)

(** [draw] is the value returned by [random.uniform(-0.1, 0.1)]; it is only
    used when [config.jitter] is set.  The power of the exponential branch
    is computed before [min] is applied, so its [OverflowError] is not
    prevented by [max_delay]; the product with [base_delay] and the
    multiplication of the linear branch do not raise. *)
Definition _calculate_delay (config : RetryConfig) (draw : Q) (attempt : nat)
    : outcome Q :=
  let computed :=
    if strategy_eq (strategy config) "exponential_backoff" then
      match Py.float_pow (backoff_factor config) attempt with
      | Return power =>
          Return (Qmin (base_delay config * power) (max_delay config))
      | Raise e => Raise e
      end
    else if strategy_eq (strategy config) "linear_backoff" then
      Return (Qmin (base_delay config * (inject_Z (Z.of_nat attempt) + 1))
                   (max_delay config))
    else
      Return (base_delay config) in
  match computed with
  | Return delay =>
      if jitter config then
        let jitter := draw * delay in
        Return (Qmax 0 (delay + jitter))
      else Return delay
  | Raise e => Raise e
  end.

(** ** MemoryCache *)

Section MemoryCache.

Variable V : Type.

(** The backing [OrderedDict] of a cache. *)
Definition odict : Type := Py.dict (CacheEntry V).

Record MemoryCache : Type := {
  max_size : Z;
  default_ttl : Q;
  _data : odict
}.

Definition with_data (c : MemoryCache) (d : odict) : MemoryCache :=
  {| max_size := max_size c; default_ttl := default_ttl c; _data := d |}.

(** [MemoryCache.get], with [now] the clock reading of [is_expired]. *)
Definition get (now : Q) (key : string) (c : MemoryCache)
    : option V * MemoryCache :=
  match od_lookup key (_data c) with
  | Some entry =>
      if is_expired now entry then
        (None, with_data c (od_delete key (_data c)))
      else
        (Some (data entry), with_data c (od_move_to_end key (_data c)))
  | None => (None, c)
  end.

(** The list comprehension of [_cleanup_expired]. *)
Definition expired_keys (current_time : Q) (d : odict) : list string :=
  map fst
    (filter (fun kv => negb (Qle_bool (current_time - timestamp (snd kv))
                                      (ttl (snd kv)))) d).

(** [MemoryCache._cleanup_expired] on the backing dictionary. *)
Definition _cleanup_expired (current_time : Q) (d : odict) : odict :=
  fold_left (fun acc key => od_delete key acc) (expired_keys current_time d) d.

(** [while len(self._data) >= self.max_size: self._data.popitem(last=False)];
    [popitem] raises [KeyError] on an empty dictionary. *)
Fixpoint evict (limit : Z) (d : odict) : outcome odict :=
  match d with
  | [] => if (limit <=? 0)%Z then Raise KeyError else Return []
  | _ :: rest =>
      if (limit <=? Z.of_nat (List.length d))%Z then evict limit rest else Return d
  end.

(** [ttl or self.default_ttl]: [None] and a zero [ttl] are both false. *)
Definition ttl_or_default (ttl : option Q) (default : Q) : Q :=
  match ttl with
  | None => default
  | Some t => if Qeq_bool t 0 then default else t
  end.

(** [MemoryCache.put].  [sweep_time] is the clock reading taken by
    [_cleanup_expired], [insert_time] the one stored in the new entry. *)
Definition put (sweep_time insert_time : Q) (key : string) (value : V)
    (ttl : option Q) (c : MemoryCache) : outcome unit * MemoryCache :=
  let swept := _cleanup_expired sweep_time (_data c) in
  match evict (max_size c) swept with
  | Raise e => (Raise e, with_data c [])
  | Return kept =>
      let entry := {| data := value; timestamp := insert_time;
                      ttl := ttl_or_default ttl (default_ttl c) |} in
      (Return tt, with_data c (od_setitem key entry kept))
  end.

(** [MemoryCache(max_size, default_ttl)] *)
Definition new_cache (size : Z) (ttl : Q) : MemoryCache :=
  {| max_size := size; default_ttl := ttl; _data := [] |}.

End MemoryCache.

Arguments with_data {V} c d.
Arguments get {V} now key c.
Arguments expired_keys {V} current_time d.
Arguments _cleanup_expired {V} current_time d.
Arguments evict {V} limit d.
Arguments put {V} sweep_time insert_time key value ttl c.

End Utils.

(* ================================================================== *)
(** * utils.py: RetryManager.execute_with_retry and OptimizedHttpClient *)
(* ================================================================== *)

Module Http.

Import Utils.
Local Open Scope Q_scope.

(** What one call of [session.get] followed by the construction of the
    [BeautifulSoup] object can do. *)
Inductive transport_result (Soup : Type) : Type :=
| HttpResponse (status : Z) (soup : Soup)
| TransportTimeout            (* [requests.exceptions.Timeout] *)
| TransportConnectionError    (* [requests.exceptions.ConnectionError] *)
| TransportOther.             (* any other [Exception] *)

Arguments HttpResponse {Soup} status soup.
Arguments TransportTimeout {Soup}.
Arguments TransportConnectionError {Soup}.
Arguments TransportOther {Soup}.

Inductive level : Type := DEBUG | INFO | WARNING | ERROR.

(** The messages of the logger calls of the fetcher, by their arguments. *)
Inductive message : Type :=
| MsgFromCache (url : string)
| MsgFetched (url : string)
| MsgSucceededAfter (attempts : nat)
| MsgAttemptFailed (attempt : nat) (delay : Q) (e : exn)
| MsgNonRetryable (e : exn)
| MsgFetchError (url : string) (e : exn).

Section Client.

(** The parsed pages ([BeautifulSoup] objects); every one of them is a true
    value, so [if soup] and [if cached_result] only test for [None]. *)
Variable Soup : Type.

(** The environment of a client: the network, indexed by the number of
    requests sent so far and answering with a result and the time the call
    took; the random generator, indexed by the number of draws so far; and
    [hashlib.md5(...).hexdigest()]. *)
Record Env : Type := {
  session_get : nat -> string -> Z -> transport_result Soup * Q;
  uniform : nat -> Q;
  md5_hexdigest : string -> string
}.

(** The state of an [OptimizedHttpClient] together with the simulated
    clock and the observations made so far ([log]: the calls of the logger's
    methods, oldest first; [slept]: the arguments of [time.sleep]). *)
Record HttpClient : Type := {
  metrics : PerformanceMetrics;
  cache : option (MemoryCache Soup);
  retry_config : RetryConfig;
  clock : Q;
  net_calls : nat;
  rng_calls : nat;
  log : list (level * message);
  slept : list Q
}.

Definition set_metrics (m : PerformanceMetrics) (s : HttpClient) : HttpClient :=
  {| metrics := m; cache := cache s; retry_config := retry_config s;
     clock := clock s; net_calls := net_calls s; rng_calls := rng_calls s;
     log := log s; slept := slept s |}.

Definition set_cache (c : option (MemoryCache Soup)) (s : HttpClient) : HttpClient :=
  {| metrics := metrics s; cache := c; retry_config := retry_config s;
     clock := clock s; net_calls := net_calls s; rng_calls := rng_calls s;
     log := log s; slept := slept s |}.

Definition emit (l : level) (msg : message) (s : HttpClient) : HttpClient :=
  {| metrics := metrics s; cache := cache s; retry_config := retry_config s;
     clock := clock s; net_calls := net_calls s; rng_calls := rng_calls s;
     log := log s ++ [(l, msg)]; slept := slept s |}.

(** A request was sent and took [latency]. *)
Definition after_request (latency : Q) (s : HttpClient) : HttpClient :=
  {| metrics := metrics s; cache := cache s; retry_config := retry_config s;
     clock := clock s + latency; net_calls := S (net_calls s);
     rng_calls := rng_calls s; log := log s; slept := slept s |}.

Definition after_draw (s : HttpClient) : HttpClient :=
  {| metrics := metrics s; cache := cache s; retry_config := retry_config s;
     clock := clock s; net_calls := net_calls s; rng_calls := S (rng_calls s);
     log := log s; slept := slept s |}.

(** Computations of the client: a result or an exception, and the state the
    client is left in. *)
Definition M (A : Type) : Type := HttpClient -> outcome A * HttpClient.

(** [time.sleep(d)]: a negative argument raises [ValueError].  (A delay of
    centuries, beyond the range of the platform's timer, is not modelled.) *)
Definition time_sleep (d : Q) : M unit :=
  fun s =>
    if Qle_bool 0 d then
      (Return tt,
       {| metrics := metrics s; cache := cache s; retry_config := retry_config s;
          clock := clock s + d; net_calls := net_calls s;
          rng_calls := rng_calls s; log := log s; slept := slept s ++ [d] |})
    else (Raise OtherException, s).

(** [OptimizedHttpClient._make_request] *)
Definition _make_request (env : Env) (url : string) (timeout : Z) : M Soup :=
  fun s =>
    let '(result, latency) := session_get env (net_calls s) url timeout in
    let s1 := after_request latency s in
    match result with
    | HttpResponse status soup =>
        (* [response.raise_for_status()] *)
        if ((400 <=? status) && (status <? 600))%Z then
          if existsb (Z.eqb status) [429; 500; 502; 503; 504]%Z then
            (Raise (RetryableError (ReasonHttpStatus status url)), s1)
          else
            (Raise (NonRetryableError (ReasonHttpStatus status url)), s1)
        else (Return soup, emit DEBUG (MsgFetched url) s1)
    | TransportTimeout => (Raise (RetryableError (ReasonTimeout url)), s1)
    | TransportConnectionError =>
        (Raise (RetryableError (ReasonConnection url)), s1)
    | TransportOther => (Raise (NonRetryableError (ReasonUnexpected url)), s1)
    end.

(** The delay of a retry as [execute_with_retry] obtains it: a draw is
    consumed only when jitter is enabled and the delay was computed. *)
Definition draw_delay (env : Env) (config : RetryConfig) (attempt : nat) : M Q :=
  fun s =>
    let draw := if jitter config then uniform env (rng_calls s) else 0 in
    match _calculate_delay config draw attempt with
    | Return delay => (Return delay, if jitter config then after_draw s else s)
    | Raise e => (Raise e, s)
    end.

(** The [for attempt in range(max_attempts)] loop of
    [RetryManager.execute_with_retry] with [remaining] iterations to go, and
    the [raise last_exception] that follows it. *)
Fixpoint retry_loop (A : Type) (env : Env) (config : RetryConfig) (func : M A)
    (remaining attempt : nat) (last_exception : option exn) : M A :=
  fun s =>
    match remaining with
    | O =>
        match last_exception with
        | Some e => (Raise e, s)
        | None => (Raise TypeError, s)
        end
    | S remaining' =>
        match func s with
        | (Return result, s1) =>
            (Return result,
             if (0 <? attempt)%nat
             then emit INFO (MsgSucceededAfter (attempt + 1)) s1 else s1)
        | (Raise e, s1) =>
            if retryable_exceptions config e then
              if (Z.of_nat attempt =? max_attempts config - 1)%Z then
                (* [break], then [raise last_exception] *)
                (Raise e, s1)
              else
                match draw_delay env config attempt s1 with
                | (Return delay, s2) =>
                    let s3 := emit WARNING (MsgAttemptFailed (attempt + 1) delay e) s2 in
                    match time_sleep delay s3 with
                    | (Return _, s4) =>
                        retry_loop env config func remaining' (S attempt) (Some e) s4
                    | (Raise e', s4) => (Raise e', s4)
                    end
                | (Raise e', s2) => (Raise e', s2)
                end
            else
              (Raise (NonRetryableError ReasonWrapped),
               emit ERROR (MsgNonRetryable e) s1)
        end
    end.

(** [RetryManager.execute_with_retry] *)
Definition execute_with_retry (A : Type) (env : Env) (config : RetryConfig)
    (func : M A) : M A :=
  retry_loop env config func (Z.to_nat (max_attempts config)) 0 None.

(** [OptimizedHttpClient._get_cache_key] ([Config.PRECOMPILE_REGEX] is set). *)
Definition _get_cache_key (env : Env) (url : string) : string :=
  md5_hexdigest env url.

(** The [try] block of [get_page] after a cache miss. *)
Definition fetch_and_store (env : Env) (url : string) (timeout : Z)
    (use_cache : bool) (start_time : Q) : M (option Soup) :=
  fun s =>
    match execute_with_retry env (retry_config s) (_make_request env url timeout) s with
    | (Raise e, s1) => (Raise e, s1)
    | (Return soup, s1) =>
        let stored :=
          match cache s1 with
          | Some c =>
              if use_cache then
                let '(r, c') := put (clock s1) (clock s1) (_get_cache_key env url)
                                    soup None c in
                (r, set_cache (Some c') s1)
              else (Return tt, s1)
          | None => (Return tt, s1)
          end in
        match stored with
        | (Raise e, s2) => (Raise e, s2)
        | (Return _, s2) =>
            (Return (Some soup),
             set_metrics (add_request (metrics s2) true (clock s2 - start_time) false) s2)
        end
    end.

(** The [try] block of [get_page]. *)
Definition get_page_body (env : Env) (url : string) (timeout : Z)
    (use_cache : bool) (start_time : Q) : M (option Soup) :=
  fun s =>
    match cache s with
    | Some c =>
        if use_cache then
          let '(cached_result, c') := get (clock s) (_get_cache_key env url) c in
          let s1 := set_cache (Some c') s in
          match cached_result with
          | Some soup =>
              let s2 := emit DEBUG (MsgFromCache url) s1 in
              (Return (Some soup),
               set_metrics (add_request (metrics s2) true (clock s2 - start_time) true) s2)
          | None => fetch_and_store env url timeout use_cache start_time s1
          end
        else fetch_and_store env url timeout use_cache start_time s
    | None => fetch_and_store env url timeout use_cache start_time s
    end.

(** [OptimizedHttpClient.get_page]: the [try] block and its
    [except Exception] handler.  [from_cache] is still [False] whenever the
    handler runs, because nothing after [from_cache = True] raises. *)
Definition get_page (env : Env) (url : string) (timeout : Z) (use_cache : bool)
    : M (option Soup) :=
  fun s =>
    let start_time := clock s in
    match get_page_body env url timeout use_cache start_time s with
    | (Return page, s1) => (Return page, s1)
    | (Raise e, s1) =>
        let s2 := emit ERROR (MsgFetchError url e) s1 in
        (Return None,
         set_metrics (add_request (metrics s2) false (clock s2 - start_time) false) s2)
    end.

(** [OptimizedHttpClient()] as the application builds it. *)
Definition new_client : HttpClient :=
  {| metrics := fresh_metrics;
     cache := if Config.ENABLE_URL_CACHE
              then Some (new_cache Soup Config.CACHE_MAX_SIZE Config.CACHE_TTL)
              else None;
     retry_config := get_retry_config;
     clock := 0; net_calls := 0; rng_calls := 0; log := []; slept := [] |}.

End Client.

End Http.

(* ================================================================== *)
(** * vinskiy_parser.py *)
(* ================================================================== *)

Module VinskiyParser.

Local Open Scope Q_scope.

(** [VinskiyForumParser._calculate_adaptive_delay], as a function of
    [self.consecutive_failures] and [page_num]. *)
Definition _calculate_adaptive_delay (consecutive_failures page_num : Z) : Q :=
  let base_delay := Config.DELAY_BETWEEN_REQUESTS in
  let base_delay :=
    if (0 <? consecutive_failures)%Z
    then base_delay * (1 + inject_Z consecutive_failures * 0.5)
    else base_delay in
  let base_delay :=
    if ((consecutive_failures =? 0) && (5 <? page_num))%Z
    then base_delay * 0.8
    else base_delay in
  Qmax base_delay 0.5.

(** The argument of [time.sleep] in [utils.sleep_with_jitter], with [draw]
    the value of [random.uniform(-jitter_factor, jitter_factor)]. *)
Definition jittered_sleep (base_delay draw : Q) : Q :=
  Qmax 0 (base_delay * (1 + draw)).

(** [sub in s] *)
Definition contains (sub s : string) : bool :=
  match String.index 0 sub s with
  | Some _ => true
  | None => false
  end.

(** [VinskiyForumParser._validate_forum_url] *)
Definition _validate_forum_url (url : string) : bool :=
  String.prefix "http" url && contains "forum.awd.ru" url
  && contains "viewforum.php" url.

(** What one iteration of a traversal loop did; every iteration calls
    [http_client.get_page] exactly once, on [url]. *)
Inductive page_event : Type :=
| FetchFailed (url : string) (failures : Z)
    (* [get_page] returned [None]; [failures] is [consecutive_failures]
       after [_handle_page_failure] *)
| PageFailed (url : string) (failures : Z) (e : exn) (next_url : option string)
    (* the [except Exception] branch; [next_url] is what the cursor was set
       to, [None] after a [break] *)
| Exhausted (url : string) (records : nat)
    (* the resolver returned no URL: [break] *)
| CycleDetected (url : string) (records : nat)
    (* the resolver returned [url] itself: [break] *)
| Advanced (url : string) (records : nat) (next_url : string) (delay : Q).
    (* the cursor moved to [next_url] after sleeping about [delay] *)

Definition event_url (ev : page_event) : string :=
  match ev with
  | FetchFailed url _ | PageFailed url _ _ _ | Exhausted url _
  | CycleDetected url _ | Advanced url _ _ _ => url
  end.

(** The iteration called [_handle_page_failure]. *)
Definition is_failure (ev : page_event) : bool :=
  match ev with
  | FetchFailed _ _ | PageFailed _ _ _ _ => true
  | _ => false
  end.

(** [consecutive_failures] right after the [_handle_page_failure] of a
    failed iteration. *)
Definition failures_after (ev : page_event) : option Z :=
  match ev with
  | FetchFailed _ n | PageFailed _ n _ _ => Some n
  | _ => None
  end.

(** What the circuit breaker means for the iterations [evs] of one
    traversal that started with [consecutive_failures = failures0]: a failed
    iteration that leaves the counter at or above the threshold is the last
    iteration; and, the counter being a count, so is the last of any
    [MAX_CONSECUTIVE_FAILURES] failed iterations in a row. *)
Definition breaker_respected (failures0 : Z) (evs : list page_event) : Prop :=
  (forall pre ev post n,
     evs = pre ++ ev :: post ->
     failures_after ev = Some n ->
     (Config.MAX_CONSECUTIVE_FAILURES <= n)%Z ->
     post = [])
  /\ ((0 <= failures0)%Z ->
      forall pre run post,
        evs = pre ++ run ++ post ->
        Forall (fun ev => is_failure ev = true) run ->
        (Config.MAX_CONSECUTIVE_FAILURES <= Z.of_nat (List.length run))%Z ->
        post = []).

(** A failed fetch ends a traversal: no iteration follows it. *)
Definition fetch_failure_is_final (evs : list page_event) : Prop :=
  forall pre url n post, evs = pre ++ FetchFailed url n :: post -> post = [].

Section Traversal.

(** [World] is the state of everything the parser talks to (HTTP client,
    extractor and resolver caches, clock, random generator); [Page] is a
    parsed page, always a true value. *)
Variables World Page : Type.

(** The attributes of a [VinskiyForumParser] that the traversals use. *)
Record Parser : Type := {
  consecutive_failures : Z;
  total_failures : Z;
  is_interrupted : bool;
  world : World
}.

Definition set_world (w : World) (p : Parser) : Parser :=
  {| consecutive_failures := consecutive_failures p;
     total_failures := total_failures p;
     is_interrupted := is_interrupted p; world := w |}.

Definition reset_failures (p : Parser) : Parser :=
  {| consecutive_failures := 0; total_failures := total_failures p;
     is_interrupted := is_interrupted p; world := world p |}.

(** The local variables of a traversal loop. *)
Record Cursor (Item : Type) : Type := {
  current_url : option string;
  page_count : Z;
  failed_pages : list Z;
  collected : list Item
}.

(** What distinguishes the loop of [parse_forum] from the loop of
    [parse_topic]: the calls made on the collaborators and the delay.
    - [fetch]: [self.http_client.get_page(current_url)], which returns and
      never raises;
    - [extract]: the extraction step of the [try] block, the only call of
      the block that can raise;
    - [resolve]: the resolver of the pagination handler, which catches its
      own exceptions and returns [None] for them;
    - [merge]: how the records of a page are added to the result;
    - [delay_for]: the base delay given to [sleep_with_jitter], from
      [consecutive_failures] and the page number;
    - [sleep_with_jitter]: the effect of the sleep on the world. *)
Record Loop (Item : Type) : Type := {
  fetch : string -> World -> option Page * World;
  extract : Page -> World -> outcome (list Item) * World;
  resolve : Page -> string -> World -> option string * World;
  merge : list Item -> list Item -> list Item;
  delay_for : Z -> Z -> Q;
  sleep_with_jitter : Q -> World -> World
}.

(** [VinskiyForumParser._handle_page_failure]; the second component is
    [failed_pages] after the call. *)
Definition _handle_page_failure (page_num : Z) (failed_pages : list Z)
    (p : Parser) : Parser * list Z :=
  ({| consecutive_failures := consecutive_failures p + 1;
      total_failures := total_failures p + 1;
      is_interrupted := is_interrupted p; world := world p |},
   failed_pages ++ [page_num]).

(** [VinskiyForumParser._should_continue_after_error] *)
Definition _should_continue_after_error (p : Parser) : bool :=
  (consecutive_failures p <? Config.MAX_CONSECUTIVE_FAILURES)%Z
  && negb (is_interrupted p).

(** [_try_next_page_url] and [_try_next_topic_page_url]: no page, no URL. *)
Definition _try_next_page_url (Item : Type) (L : Loop Item)
    (soup : option Page) (current_url : string) (w : World)
    : option string * World :=
  match soup with
  | None => (None, w)
  | Some page => resolve L page current_url w
  end.

Definition prepend (Item : Type) (ev : page_event)
    (r : option (Parser * Cursor Item * list page_event))
    : option (Parser * Cursor Item * list page_event) :=
  match r with
  | Some (p, c, evs) => Some (p, c, ev :: evs)
  | None => None
  end.

(** The [while] loop shared by [parse_forum] and [parse_topic].  The result
    is the parser and the local variables when the loop is left and the
    iterations performed, oldest first; [None] means that [fuel] iterations
    were not enough. *)
Fixpoint crawl (Item : Type) (L : Loop Item) (fuel : nat) (p : Parser)
    (c : Cursor Item) : option (Parser * Cursor Item * list page_event) :=
  if truthy_url (current_url c) && (page_count c <? Config.MAX_PAGES)%Z
     && negb (is_interrupted p)
  then
    match fuel, current_url c with
    | S fuel', Some url =>
        let page_count := (page_count c + 1)%Z in
        let '(soup, w1) := fetch L url (world p) in
        let p1 := set_world w1 p in
        match soup with
        | None =>
            let '(p2, failed) := _handle_page_failure page_count (failed_pages c) p1 in
            let '(next_url, w2) := _try_next_page_url L soup url (world p2) in
            prepend (FetchFailed url (consecutive_failures p2))
              (crawl L fuel' (set_world w2 p2)
                 {| current_url := next_url; page_count := page_count;
                    failed_pages := failed; collected := collected c |})
        | Some page =>
            match extract L page (world p1) with
            | (Return items, w2) =>
                let p2 := set_world w2 p1 in
                let p3 := match items with [] => p2 | _ => reset_failures p2 end in
                let all := merge L (collected c) items in
                let '(next_url, w3) := resolve L page url (world p3) in
                let p4 := set_world w3 p3 in
                let stop :=
                  {| current_url := Some url; page_count := page_count;
                     failed_pages := failed_pages c; collected := all |} in
                if truthy_url next_url then
                  match next_url with
                  | Some next =>
                      if String.eqb next url then
                        Some (p4, stop, [CycleDetected url (List.length items)])
                      else
                        let delay :=
                          delay_for L (consecutive_failures p4) page_count in
                        prepend (Advanced url (List.length items) next delay)
                          (crawl L fuel'
                             (set_world (sleep_with_jitter L delay (world p4)) p4)
                             {| current_url := Some next; page_count := page_count;
                                failed_pages := failed_pages c; collected := all |})
                  | None => Some (p4, stop, [Exhausted url (List.length items)])
                  end
                else Some (p4, stop, [Exhausted url (List.length items)])
            | (Raise e, w2) =>
                let '(p2, failed) :=
                  _handle_page_failure page_count (failed_pages c) (set_world w2 p1) in
                if _should_continue_after_error p2 then
                  let '(next_url, w3) := _try_next_page_url L (Some page) url (world p2) in
                  prepend (PageFailed url (consecutive_failures p2) e next_url)
                    (crawl L fuel' (set_world w3 p2)
                       {| current_url := next_url; page_count := page_count;
                          failed_pages := failed; collected := collected c |})
                else
                  Some (p2,
                        {| current_url := Some url; page_count := page_count;
                           failed_pages := failed; collected := collected c |},
                        [PageFailed url (consecutive_failures p2) e None])
            end
        end
    | _, _ => None
    end
  else Some (p, c, []).

(** The loop test of the traversals. *)
Definition keep_going (Item : Type) (p : Parser) (c : Cursor Item) : bool :=
  truthy_url (current_url c) && (page_count c <? Config.MAX_PAGES)%Z
  && negb (is_interrupted p).

(** The iterations of the loop as transitions: from the parser [p] and the
    local variables [c] at the loop test, with [url] the current URL, an
    iteration produces an event and either the state at the next loop test
    or, after a [break], nothing. *)
Inductive transition (Item : Type) (L : Loop Item) (p : Parser) (c : Cursor Item)
    (url : string) : page_event -> option (Parser * Cursor Item) -> Prop :=
| T_fetch_failed (p2 : Parser) (c2 : Cursor Item) :
    consecutive_failures p2 = (consecutive_failures p + 1)%Z ->
    is_interrupted p2 = is_interrupted p ->
    current_url c2 = None ->
    page_count c2 = (page_count c + 1)%Z ->
    failed_pages c2 = failed_pages c ++ [(page_count c + 1)%Z] ->
    transition L p c url
      (FetchFailed url (consecutive_failures p + 1)) (Some (p2, c2))
| T_page_failed (e : exn) (p2 : Parser) (c2 : Cursor Item) :
    consecutive_failures p2 = (consecutive_failures p + 1)%Z ->
    (consecutive_failures p + 1 < Config.MAX_CONSECUTIVE_FAILURES)%Z ->
    is_interrupted p2 = is_interrupted p ->
    page_count c2 = (page_count c + 1)%Z ->
    failed_pages c2 = failed_pages c ++ [(page_count c + 1)%Z] ->
    transition L p c url
      (PageFailed url (consecutive_failures p + 1) e (current_url c2))
      (Some (p2, c2))
| T_breaker (e : exn) :
    (Config.MAX_CONSECUTIVE_FAILURES <= consecutive_failures p + 1)%Z ->
    transition L p c url
      (PageFailed url (consecutive_failures p + 1) e None) None
| T_exhausted (records : nat) :
    transition L p c url (Exhausted url records) None
| T_cycle (records : nat) :
    transition L p c url (CycleDetected url records) None
| T_advanced (records : nat) (next : string) (p2 : Parser) (c2 : Cursor Item) :
    next <> url ->
    consecutive_failures p2
      = (if Nat.eqb records 0 then consecutive_failures p else 0%Z) ->
    is_interrupted p2 = is_interrupted p ->
    current_url c2 = Some next ->
    page_count c2 = (page_count c + 1)%Z ->
    failed_pages c2 = failed_pages c ->
    transition L p c url
      (Advanced url records next
         (delay_for L (consecutive_failures p2) (page_count c + 1)))
      (Some (p2, c2)).

(** The state of the local variables before the first iteration. *)
Definition start (Item : Type) (url : string) : Cursor Item :=
  {| current_url := Some url; page_count := 0; failed_pages := [];
     collected := [] |}.

(** [_retry_failed_pages] and [_retry_failed_topic_pages]: nothing is
    recovered. *)
Definition _retry_failed_pages (Item : Type) (failed_pages : list Z) : list Item := [].

(** The statements after the loop: the recovery step and the result. *)
Definition finish (Item : Type) (L : Loop Item) (c : Cursor Item) : list Item :=
  match failed_pages c with
  | [] => collected c
  | _ :: _ =>
      if Config.ENABLE_ERROR_RECOVERY
      then merge L (collected c) (_retry_failed_pages Item (failed_pages c))
      else collected c
  end.

(** A traversal: the loop with a budget of [Config.MAX_PAGES] iterations,
    then the statements after it.  The result is the returned records, the
    parser afterwards and the iterations performed. *)
Definition traverse (Item : Type) (L : Loop Item) (url : string) (p : Parser)
    : option (list Item * Parser * list page_event) :=
  match crawl L (Z.to_nat Config.MAX_PAGES) p (start Item url) with
  | Some (p', c', evs) => Some (finish L c', p', evs)
  | None => None
  end.

(** The collaborators of the listing traversal: [http_client.get_page],
    [html_parser.extract_topic_links], [pagination_handler.get_next_page_url]
    and the sleep. *)
Record ForumDeps : Type := {
  forum_get_page : string -> World -> option Page * World;
  extract_topic_links : Page -> World -> outcome (list (string * string)) * World;
  get_next_page_url : Page -> string -> World -> option string * World;
  forum_sleep : Q -> World -> World
}.

Definition forum_loop (D : ForumDeps) : Loop (string * string) :=
  {| fetch := forum_get_page D;
     extract := extract_topic_links D;
     resolve := get_next_page_url D;
     merge := @Py.od_update string;
     delay_for := _calculate_adaptive_delay;
     sleep_with_jitter := forum_sleep D |}.

(** [VinskiyForumParser.parse_forum]: the result is [Raise InvalidUrlError]
    for a URL that fails validation, the dictionary of topics otherwise. *)
Definition parse_forum (D : ForumDeps) (forum_url : string) (p : Parser)
    : option (outcome (list (string * string)) * Parser * list page_event) :=
  if _validate_forum_url forum_url then
    match traverse (forum_loop D) forum_url p with
    | Some (topics, p', evs) => Some (Return topics, p', evs)
    | None => None
    end
  else Some (Raise InvalidUrlError, p, []).

(** The collaborators of the topic traversal: [http_client.get_page],
    [html_parser.extract_posts_from_page], [_convert_posts_data_safe] (which
    catches its exceptions), [pagination_handler.get_next_topic_page_url] and
    the sleep. *)
Record TopicDeps (PostData Post : Type) : Type := {
  topic_get_page : string -> World -> option Page * World;
  extract_posts_from_page : Page -> World -> outcome (list PostData) * World;
  _convert_posts_data_safe : list PostData -> World -> list Post * World;
  get_next_topic_page_url : Page -> string -> World -> option string * World;
  topic_sleep : Q -> World -> World
}.

Definition topic_loop (PostData Post : Type) (D : TopicDeps PostData Post)
    : Loop Post :=
  {| fetch := topic_get_page D;
     extract := fun page w =>
       match extract_posts_from_page D page w with
       | (Return posts_data, w1) =>
           let '(page_posts, w2) := _convert_posts_data_safe D posts_data w1 in
           (Return page_posts, w2)
       | (Raise e, w1) => (Raise e, w1)
       end;
     resolve := get_next_topic_page_url D;
     merge := @List.app Post;
     delay_for := fun _ _ => Config.DELAY_BETWEEN_REQUESTS;
     sleep_with_jitter := topic_sleep D |}.

(** [VinskiyForumParser.parse_topic] *)
Definition parse_topic (PostData Post : Type) (D : TopicDeps PostData Post)
    (topic_url : string) (p : Parser)
    : option (list Post * Parser * list page_event) :=
  traverse (topic_loop D) topic_url p.

End Traversal.


(** A parser as [VinskiyForumParser.__init__] leaves it. *)
Definition new_parser (World : Type) (w : World) : Parser World :=
  {| consecutive_failures := 0; total_failures := 0; is_interrupted := false;
     world := w |}.

End VinskiyParser.

(* ================================================================== *)
(** * Concrete inputs used by the examples below *)
(* ================================================================== *)

Module Samples.

Import Utils Http VinskiyParser.
Local Open Scope Q_scope.

(** Three recorded requests: a success, a failure and a cache hit. *)
Definition sample_calls : list request_call :=
  [ {| call_success := true; call_time := 0.25; call_from_cache := false |};
    {| call_success := false; call_time := 3; call_from_cache := false |};
    {| call_success := true; call_time := 0; call_from_cache := true |} ].

(** The configured delays and factor with the strategy given by name, so
    that [_calculate_delay] takes its exponential branch. *)
Definition exponential_policy (with_jitter : bool) (factor : Q) : RetryConfig :=
  {| max_attempts := Config.RETRY_MAX_ATTEMPTS;
     strategy := StrategyName "exponential_backoff";
     base_delay := Config.RETRY_BASE_DELAY;
     max_delay := Config.RETRY_MAX_DELAY;
     jitter := with_jitter;
     backoff_factor := factor;
     retryable_exceptions := default_retryable_exceptions |}.

(** A cache of capacity 2 that is full: ["a"] was stored at time 0 and is
    the least recently used key, ["b"] was stored at time 5. *)
Definition sample_entry (value : nat) (stored_at : Q) : CacheEntry nat :=
  {| data := value; timestamp := stored_at; ttl := 300 |}.

Definition sample_cache : MemoryCache nat :=
  {| max_size := 2; default_ttl := 300;
     _data := [("a"%string, sample_entry 1 0); ("b"%string, sample_entry 2 5)] |}.

(** An empty cache with the configured capacity and default TTL. *)
Definition empty_cache : MemoryCache nat :=
  new_cache nat Config.CACHE_MAX_SIZE Config.CACHE_TTL.

(** A network whose first request times out after 10 time units and whose
    later requests are answered with status 200 and page 42; random draws
    are 0 and the URL itself stands in for its MD5 digest. *)
Definition flaky_env : Env nat :=
  {| session_get := fun n _ _ =>
       match n with
       | O => (TransportTimeout, 10)
       | S _ => (HttpResponse 200 42%nat, 0.5)
       end;
     uniform := fun _ => 0;
     md5_hexdigest := fun url => url |}.

(** A network on which every request times out. *)
Definition dead_env : Env nat :=
  {| session_get := fun _ _ _ => (TransportTimeout, 10);
     uniform := fun _ => 0;
     md5_hexdigest := fun url => url |}.

(** A server that answers every request with status 404. *)
Definition missing_env : Env nat :=
  {| session_get := fun _ _ _ => (HttpResponse 404 0%nat, 0.5);
     uniform := fun _ => 0;
     md5_hexdigest := fun url => url |}.

(** A forum of seven listing pages; page [n] is the number [n]. *)
Definition listing_urls : list string :=
  [ "https://forum.awd.ru/viewforum.php?f=1190";
    "https://forum.awd.ru/viewforum.php?f=1190&start=131";
    "https://forum.awd.ru/viewforum.php?f=1190&start=262";
    "https://forum.awd.ru/viewforum.php?f=1190&start=393";
    "https://forum.awd.ru/viewforum.php?f=1190&start=524";
    "https://forum.awd.ru/viewforum.php?f=1190&start=655";
    "https://forum.awd.ru/viewforum.php?f=1190&start=786" ]%string.

Definition first_url : string := "https://forum.awd.ru/viewforum.php?f=1190".

Fixpoint position (url : string) (urls : list string) : option nat :=
  match urls with
  | [] => None
  | u :: rest =>
      if String.eqb u url then Some O
      else match position url rest with
           | Some n => Some (S n)
           | None => None
           end
  end.

Definition fetch_listing (url : string) (w : unit) : option nat * unit :=
  (position url listing_urls, w).

Definition next_listing (page : nat) (current_url : string) (w : unit)
    : option string * unit :=
  (nth_error listing_urls (S page), w).

Definition one_topic (page : nat) (w : unit)
    : outcome (list (string * string)) * unit :=
  (Return [(nth page listing_urls EmptyString, "https://forum.awd.ru/viewtopic.php?t=1"%string)], w).

Definition extraction_fails (A : Type) (page : nat) (w : unit) : outcome A * unit :=
  (Raise ContentExtractionError, w).

(** The seven pages are served and yield one topic each. *)
Definition healthy_forum : ForumDeps unit nat :=
  {| forum_get_page := fetch_listing;
     extract_topic_links := one_topic;
     get_next_page_url := next_listing;
     forum_sleep := fun _ w => w |}.

(** The seven pages are served, but the extraction raises on each. *)
Definition broken_forum : ForumDeps unit nat :=
  {| forum_get_page := fetch_listing;
     extract_topic_links := @extraction_fails _;
     get_next_page_url := next_listing;
     forum_sleep := fun _ w => w |}.

Definition broken_topic : TopicDeps unit nat nat nat :=
  {| topic_get_page := fetch_listing;
     extract_posts_from_page := @extraction_fails _;
     _convert_posts_data_safe := fun posts w => (posts, w);
     get_next_topic_page_url := next_listing;
     topic_sleep := fun _ w => w |}.

(** The extraction raises and the resolver answers with the URL of the
    page it was given. *)
Definition self_linked_forum : ForumDeps unit nat :=
  {| forum_get_page := fetch_listing;
     extract_topic_links := @extraction_fails _;
     get_next_page_url := fun _ current_url w => (Some current_url, w);
     forum_sleep := fun _ w => w |}.



End Samples.

(* ================================================================== *)
(** * Further parts of the code *)
(* ================================================================== *)

Module More.

Import Utils Http VinskiyParser.
Local Open Scope Q_scope.

(** ** Observations on a client *)

(** The delays announced by the retry warnings of a log, oldest first. *)
Fixpoint warning_delays (entries : list (level * message)) : list Q :=
  match entries with
  | [] => []
  | (WARNING, MsgAttemptFailed _ delay _) :: rest => delay :: warning_delays rest
  | _ :: rest => warning_delays rest
  end.

(** What the retries of one fetch may do to a client, from [s] to [s']: the
    configuration is kept, at most [max_attempts] requests are sent, fewer
    sleeps than that are taken, every sleep is announced by a warning with
    its delay, and a warning without its sleep is the one of a negative
    delay. *)
Definition retried_within (Soup : Type) (s s' : HttpClient Soup) : Prop :=
  retry_config s' = retry_config s
  /\ (net_calls s <= net_calls s'
       <= net_calls s + Z.to_nat (max_attempts (retry_config s)))%nat
  /\ exists delays unslept,
       slept s' = slept s ++ delays
       /\ warning_delays (log s') = warning_delays (log s) ++ delays ++ unslept
       /\ (List.length delays <= pred (Z.to_nat (max_attempts (retry_config s))))%nat
       /\ Forall (fun d => 0 <= d) delays
       /\ (jitter (retry_config s) = true -> unslept = []).

(** The answers of the network that [_make_request] turns into a
    [RetryableError]: a timeout, a connection error, or one of the statuses
    429, 500, 502, 503 and 504. *)
Definition transient (Soup : Type) (r : transport_result Soup) : bool :=
  match r with
  | TransportTimeout | TransportConnectionError => true
  | HttpResponse status _ => existsb (Z.eqb status) [429; 500; 502; 503; 504]%Z
  | TransportOther => false
  end.

(** One call of [get_page]: its arguments. *)
Record page_request : Type := {
  request_url : string;
  request_timeout : Z;
  request_use_cache : bool
}.

(** The client after a sequence of [get_page] calls. *)
Fixpoint get_pages (Soup : Type) (env : Env Soup) (requests : list page_request)
    (s : HttpClient Soup) : HttpClient Soup :=
  match requests with
  | [] => s
  | r :: rest =>
      get_pages env rest
        (snd (get_page env (request_url r) (request_timeout r)
                (request_use_cache r) s))
  end.

(** The number of calls of a sequence of [get_page] calls that returned a
    page. *)
Fixpoint pages_returned (Soup : Type) (env : Env Soup)
    (requests : list page_request) (s : HttpClient Soup) : nat :=
  match requests with
  | [] => O
  | r :: rest =>
      let call := get_page env (request_url r) (request_timeout r)
                    (request_use_cache r) s in
      (match fst call with
       | Return (Some _) => 1
       | _ => 0
       end + pages_returned env rest (snd call))%nat
  end.

(** The client [elapsed] time units later, not used in between. *)
Definition later (Soup : Type) (elapsed : Q) (s : HttpClient Soup)
    : HttpClient Soup :=
  {| metrics := metrics s; cache := cache s; retry_config := retry_config s;
     clock := clock s + elapsed; net_calls := net_calls s;
     rng_calls := rng_calls s; log := log s; slept := slept s |}.

(** ** utils.py: OptimizedFileWriter.create_safe_filename *)

(** A Python [str] as the list of its code points. *)
Definition text : Type := list N.

(** The characters of the class of the regular expression: less-than,
    greater-than, colon, double quote, slash, backslash, vertical bar,
    question mark and asterisk. *)
Definition unsafe_chars : list N := [60; 62; 58; 34; 47; 92; 124; 63; 42]%N.

Definition is_unsafe (ch : N) : bool := existsb (N.eqb ch) unsafe_chars.

(** [s[:n]]: a negative [n] counts from the end. *)
Definition slice_to (A : Type) (n : Z) (s : list A) : list A :=
  if (0 <=? n)%Z then firstn (Z.to_nat n) s
  else firstn (Z.to_nat (Z.of_nat (List.length s) + n)) s.

(** [create_safe_filename]: every character of the class is replaced by an
    underscore, then the result is cut with [[:max_length]]. *)
Definition create_safe_filename (title : text) (max_length : Z) : text :=
  slice_to max_length (map (fun ch => if is_unsafe ch then 95%N else ch) title).

(** ** vinskiy_parser.py: parse_topic_streaming *)

Section Streaming.

Variables World Page PostData : Type.

(** The collaborators of the streaming traversal.  [write_post_data] is the
    body of the [try] of the inner loop for one post ([convert], [Post(...)],
    [file_writer.write_post]): [true] when the post was written, [false]
    when an exception was caught and the post skipped. *)
Record StreamDeps : Type := {
  stream_get_page : string -> World -> option Page * World;
  stream_extract_posts : Page -> World -> outcome (list PostData) * World;
  write_post_data : PostData -> World -> bool * World;
  stream_next_page_url : Page -> string -> World -> option string * World;
  stream_sleep : Q -> World -> World
}.

(** The inner [for post_data in posts_data] loop: the posts that were
    written, in order. *)
Fixpoint write_posts (D : StreamDeps) (posts_data : list PostData) (w : World)
    : list PostData * World :=
  match posts_data with
  | [] => ([], w)
  | post_data :: rest =>
      let '(written, w1) := write_post_data D post_data w in
      let '(others, w2) := write_posts D rest w1 in
      (if written then post_data :: others else others, w2)
  end.

(** The loop of [parse_topic_streaming]; [collected] holds the posts
    written so far, whose number is [total_posts]. *)
Definition stream_loop (D : StreamDeps) : Loop World Page PostData :=
  {| fetch := stream_get_page D;
     extract := fun page w =>
       match stream_extract_posts D page w with
       | (Return posts_data, w1) =>
           let '(written, w2) := write_posts D posts_data w1 in
           (Return written, w2)
       | (Raise e, w1) => (Raise e, w1)
       end;
     resolve := stream_next_page_url D;
     merge := @List.app PostData;
     delay_for := fun _ _ => Config.DELAY_BETWEEN_REQUESTS;
     sleep_with_jitter := stream_sleep D |}.

(** [VinskiyForumParser.parse_topic_streaming]: the number of posts
    written, the parser afterwards and the iterations performed. *)
Definition parse_topic_streaming (D : StreamDeps) (topic_url : string)
    (p : Parser World) : option (Z * Parser World * list page_event) :=
  match crawl (stream_loop D) (Z.to_nat Config.MAX_PAGES) p (start PostData topic_url) with
  | Some (p', c', evs) => Some (Z.of_nat (List.length (collected c')), p', evs)
  | None => None
  end.

End Streaming.

(** ** Observations on the iterations of a traversal *)

(** The number of records an iteration added to the result. *)
Definition records_of (ev : page_event) : nat :=
  match ev with
  | Exhausted _ n | CycleDetected _ n | Advanced _ n _ _ => n
  | FetchFailed _ _ | PageFailed _ _ _ _ => O
  end.

(** The number of failed iterations. *)
Definition failures_in (evs : list page_event) : nat :=
  List.length (filter is_failure evs).

(** The iterations [evs] of a traversal entered at [url] follow the links:
    the first iteration fetches [url]; an iteration that is followed by
    another one either advanced to a different URL or recovered a URL on
    the error path, and the next iteration fetches exactly that URL; no
    iteration follows a failed fetch, the end of the pagination or a
    detected cycle. *)
Definition follows_links (url : string) (evs : list page_event) : Prop :=
  (forall ev rest, evs = ev :: rest -> event_url ev = url)
  /\ (forall pre ev ev2 post,
        evs = pre ++ ev :: ev2 :: post ->
        match ev with
        | Advanced current _ next _ => next <> current /\ event_url ev2 = next
        | PageFailed _ _ _ next => next = Some (event_url ev2)
        | FetchFailed _ _ | Exhausted _ _ | CycleDetected _ _ => False
        end).

(** ** utils.py: the policy with its jitter switched off *)

Definition without_jitter (config : RetryConfig) : RetryConfig :=
  {| max_attempts := max_attempts config;
     strategy := strategy config;
     base_delay := base_delay config;
     max_delay := max_delay config;
     jitter := false;
     backoff_factor := backoff_factor config;
     retryable_exceptions := retryable_exceptions config |}.

(** ** Further concrete inputs *)

(** A cache without capacity. *)
Definition null_cache : MemoryCache nat := new_cache nat 0 300.

(** The sample cache once ["a"] is older than its TTL of 300. *)
Definition stale_time : Q := 303.

(** A client like the one the application builds, with no attempt allowed. *)
Definition lazy_client : HttpClient nat :=
  {| metrics := fresh_metrics;
     cache := Some (new_cache nat Config.CACHE_MAX_SIZE Config.CACHE_TTL);
     retry_config :=
       {| max_attempts := 0;
          strategy := StrategyName "fixed_delay";
          base_delay := 1; max_delay := 30; jitter := true; backoff_factor := 2;
          retryable_exceptions := default_retryable_exceptions |};
     clock := 0; net_calls := 0; rng_calls := 0; log := []; slept := [] |}.

(** A linear policy without jitter. *)
Definition linear_policy : RetryConfig :=
  {| max_attempts := 5;
     strategy := StrategyName "linear_backoff";
     base_delay := 2; max_delay := 7; jitter := false; backoff_factor := 2;
     retryable_exceptions := default_retryable_exceptions |}.

(** Three requests: the same page twice, then another one without cache. *)
Definition sample_requests : list page_request :=
  [ {| request_url := "u"; request_timeout := 10; request_use_cache := true |};
    {| request_url := "u"; request_timeout := 10; request_use_cache := true |};
    {| request_url := "v"; request_timeout := 5; request_use_cache := false |} ].

(** A client whose cache holds the two entries of the sample cache. *)
Definition warm_client : HttpClient nat :=
  {| metrics := fresh_metrics;
     cache := Some Samples.sample_cache;
     retry_config := get_retry_config;
     clock := 7; net_calls := 0; rng_calls := 0; log := []; slept := [] |}.

(** A parser that was interrupted. *)
Definition interrupted_parser : Parser unit :=
  {| consecutive_failures := 0; total_failures := 0; is_interrupted := true;
     world := tt |}.

(** The streaming traversal over the seven sample pages when the
    extraction raises on each of them. *)
Definition broken_stream : StreamDeps unit nat nat :=
  {| stream_get_page := Samples.fetch_listing;
     stream_extract_posts := @Samples.extraction_fails _;
     write_post_data := fun _ w => (true, w);
     stream_next_page_url := Samples.next_listing;
     stream_sleep := fun _ w => w |}.

(** The title [a/b: c?] as code points. *)
Definition sample_title : text := [97; 47; 98; 58; 32; 99; 63]%N.

End More.

(* ================================================================== *)
(** * Properties *)
(* ================================================================== *)

Import Utils Http VinskiyParser Samples More.
Local Open Scope Q_scope.

(** ** Request metrics *)

Lemma add_requests_snoc m calls c :
  add_requests m (calls ++ [c])
  = add_request (add_requests m calls) (call_success c) (call_time c) (call_from_cache c).
Proof. unfold add_requests. now rewrite fold_left_app. Qed.

Lemma add_request_counts m success t from_cache :
  total_requests m = (successful_requests m + failed_requests m)%N ->
  (cached_requests m <= total_requests m)%N ->
  let m' := add_request m success t from_cache in
  total_requests m' = (successful_requests m' + failed_requests m')%N
  /\ (cached_requests m' <= total_requests m')%N.
Proof.
  intros Hsum Hcached; cbn.
  destruct success, from_cache; cbn; lia.
Qed.

Lemma add_requests_counts calls :
  let m := add_requests fresh_metrics calls in
  total_requests m = (successful_requests m + failed_requests m)%N
  /\ (cached_requests m <= total_requests m)%N.
Proof.
  induction calls as [|c calls IH] using rev_ind.
  - cbn. split; [reflexivity | lia].
  - rewrite add_requests_snoc. destruct IH as [Hsum Hcached].
    now apply add_request_counts.
Qed.

(** C10.  Starting from a fresh [PerformanceMetrics()], after any sequence of
    [add_request] calls: [total_requests] is the sum of
    [successful_requests] and [failed_requests], [cached_requests] is at
    most [total_requests], and when [total_requests > 0] the field
    [average_request_time] is [total_processing_time / total_requests]. *)
Theorem metrics_invariant (calls : list request_call) :
  total_requests (add_requests fresh_metrics calls)
  = (successful_requests (add_requests fresh_metrics calls)
     + failed_requests (add_requests fresh_metrics calls))%N
  /\ (cached_requests (add_requests fresh_metrics calls)
      <= total_requests (add_requests fresh_metrics calls))%N
  /\ ((0 < total_requests (add_requests fresh_metrics calls))%N ->
      average_request_time (add_requests fresh_metrics calls)
      = total_processing_time (add_requests fresh_metrics calls)
        / inject_Z (Z.of_N (total_requests (add_requests fresh_metrics calls)))).
Proof.
  destruct (add_requests_counts calls) as [Hsum Hcached].
  repeat split; try assumption.
  destruct calls as [|c calls] using rev_ind.
  - cbn. intros H; discriminate H.
  - intros _. rewrite add_requests_snoc. reflexivity.
Qed.

Lemma metrics_invariant_witness :
  (0 < total_requests (add_requests fresh_metrics sample_calls))%N
  /\ average_request_time (add_requests fresh_metrics sample_calls)
     = total_processing_time (add_requests fresh_metrics sample_calls)
       / inject_Z (Z.of_N (total_requests (add_requests fresh_metrics sample_calls))).
Proof.
  split.
  - reflexivity.
  - apply (metrics_invariant sample_calls). reflexivity.
Defined.

(** ** Retry delays *)







(** The only exception of [float_pow] is [OverflowError]. *)
Lemma float_pow_raises (x : Q) (n : nat) (e : exn) :
  Py.float_pow x n = Raise e ->
  e = OverflowError /\ Py.float_max < Qabs (Py.pow x n).
Proof.
  unfold Py.float_pow.
  destruct (Qle_bool (Qabs (Py.pow x n)) Py.float_max) eqn:Hb; [discriminate|].
  intros H. injection H as <-. split; [reflexivity|].
  apply Qnot_le_lt. intros Hle. apply Qle_bool_iff in Hle. congruence.
Qed.


(** Whatever the strategy, [_calculate_delay] raises nothing but the
    [OverflowError] of the power of its exponential branch. *)
Lemma calculate_delay_raises (config : RetryConfig) (draw : Q) (n : nat) (e : exn) :
  _calculate_delay config draw n = Raise e ->
  e = OverflowError
  /\ strategy_eq (strategy config) "exponential_backoff" = true
  /\ Py.float_max < Qabs (Py.pow (backoff_factor config) n).
Proof.
  unfold _calculate_delay.
  destruct (strategy_eq (strategy config) "exponential_backoff").
  - destruct (Py.float_pow (backoff_factor config) n) as [power|e'] eqn:Hpow.
    + destruct (jitter config); discriminate.
    + intros H. injection H as <-.
      destruct (float_pow_raises _ _ Hpow) as [-> Hover]. now repeat split.
  - destruct (strategy_eq (strategy config) "linear_backoff");
      destruct (jitter config); discriminate.
Qed.

(** With jitter enabled a computed delay is never negative. *)
Lemma jittered_delay_nonneg (config : RetryConfig) (draw : Q) (n : nat) (d : Q) :
  jitter config = true ->
  _calculate_delay config draw n = Return d ->
  0 <= d.
Proof.
  intros Hj. unfold _calculate_delay. rewrite Hj.
  match goal with |- match ?c with _ => _ end = _ -> _ => destruct c end;
    [|discriminate].
  intros H. injection H as <-. apply Q.le_max_l.
Qed.




(** With jitter enabled the delay stays within 10% above [max_delay]. *)
Lemma exponential_delay_with_jitter (config : RetryConfig) (draw : Q) (n : nat)
    (d : Q) :
  strategy_eq (strategy config) "exponential_backoff" = true ->
  jitter config = true ->
  0 <= max_delay config ->
  - 0.1 <= draw -> draw <= 0.1 ->
  _calculate_delay config draw n = Return d ->
  d <= 1.1 * max_delay config.
Proof.
  intros Hs Hj Hmax Hlo Hhi. unfold _calculate_delay. rewrite Hs, Hj.
  destruct (Py.float_pow (backoff_factor config) n) as [power|e]; [|discriminate].
  intros H. injection H as <-.
  set (d := Qmin _ _).
  assert (Hd : d <= max_delay config) by apply Q.le_min_r.
  apply Q.max_lub; nra.
Qed.

(** The policy the application builds stores an enumeration member in
    [strategy], so [_calculate_delay] takes its fixed-delay branch. *)
Lemma configured_policy_is_fixed (draw : Q) (n : nat) :
  _calculate_delay get_retry_config draw n
  = Return (Qmax 0 (Config.RETRY_BASE_DELAY + draw * Config.RETRY_BASE_DELAY)).
Proof. reflexivity. Qed.

(** ** Adaptive delay of the listing traversal *)


(** The three regimes at the configured base delay of 1: the floor never
    binds. *)
Lemma adaptive_delay_values (consecutive_failures page_num : Z) :
  ((0 < consecutive_failures)%Z ->
     _calculate_adaptive_delay consecutive_failures page_num
     == 1 + inject_Z consecutive_failures * 0.5)
  /\ (consecutive_failures = 0%Z -> (5 < page_num)%Z ->
     _calculate_adaptive_delay consecutive_failures page_num == 0.8)
  /\ (consecutive_failures = 0%Z -> (page_num <= 5)%Z ->
     _calculate_adaptive_delay consecutive_failures page_num == 1).
Proof.
  unfold _calculate_adaptive_delay, Config.DELAY_BETWEEN_REQUESTS.
  repeat split.
  - intros Hpos. apply Z.ltb_lt in Hpos as Hb. rewrite Hb.
    assert (Hz : (consecutive_failures =? 0)%Z = false) by (apply Z.eqb_neq; lia).
    rewrite Hz. cbn [andb].
    assert (0 < inject_Z consecutive_failures).
    { change 0 with (inject_Z 0). now rewrite <- Zlt_Qlt. }
    destruct (Q.max_spec (1 * (1 + inject_Z consecutive_failures * 0.5)) 0.5)
      as [[? ->]|[? ->]]; lra.
  - intros -> Hpage. apply Z.ltb_lt in Hpage. rewrite Hpage. reflexivity.
  - intros -> Hpage. apply Z.ltb_ge in Hpage. rewrite Hpage. reflexivity.
Qed.

(** X30.  With the configured base delay the computed delay is at least 0.8, so
    what [sleep_with_jitter] sleeps stays above the floor of 0.5 for every
    draw within 10%. *)
Lemma slept_delay_above_floor (consecutive_failures page_num : Z) (draw : Q) :
  - 0.1 <= draw -> draw <= 0.1 ->
  0.5 <= jittered_sleep (_calculate_adaptive_delay consecutive_failures page_num) draw.
Proof.
  intros Hlo Hhi.
  assert (Hd : 0.8 <= _calculate_adaptive_delay consecutive_failures page_num).
  { destruct (adaptive_delay_values consecutive_failures page_num) as (Hup & Hdown & Hflat).
    destruct (Z.lt_trichotomy consecutive_failures 0) as [Hneg|[Hzero|Hpos]].
    - unfold _calculate_adaptive_delay, Config.DELAY_BETWEEN_REQUESTS.
      destruct (Z.ltb_spec 0 consecutive_failures); [lia|].
      destruct (Z.eqb_spec consecutive_failures 0); [lia|].
      cbn [andb]. apply Qle_trans with (y := 1 * 1); [lra | apply Q.le_max_l].
    - destruct (Z.lt_ge_cases 5 page_num) as [Hpage|Hpage].
      + rewrite (Hdown Hzero Hpage). lra.
      + rewrite (Hflat Hzero Hpage). lra.
    - rewrite (Hup Hpos).
      assert (0 < inject_Z consecutive_failures).
      { change 0 with (inject_Z 0). now rewrite <- Zlt_Qlt. }
      lra. }
  unfold jittered_sleep.
  apply Qle_trans
    with (y := _calculate_adaptive_delay consecutive_failures page_num * (1 + draw));
    [nra | apply Q.le_max_r].
Qed.

(** ** Dictionaries *)

Section DictFacts.

Variable E : Type.
Implicit Types (d : Py.dict E) (key : string).

Lemma od_lookup_none_not_in key d :
  od_lookup key d = None <-> ~ In key (map fst d).
Proof.
  induction d as [|[k e] d IH]; cbn.
  - tauto.
  - destruct (String.eqb_spec k key) as [->|Hne].
    + split; [discriminate | intros H; exfalso; apply H; now left].
    + rewrite IH. split.
      * intros H [Hk|Hin]; [now apply Hne | now apply H].
      * intros H Hin. apply H. now right.
Qed.

Lemma od_delete_keys_incl key d k :
  In k (map fst (od_delete key d)) -> In k (map fst d).
Proof.
  induction d as [|[k' e] d IH]; cbn; [tauto|].
  destruct (String.eqb k' key); cbn; tauto.
Qed.

Lemma od_delete_wf key d : od_wf d -> od_wf (od_delete key d).
Proof.
  unfold od_wf. induction d as [|[k e] d IH]; cbn; intros Hwf; [assumption|].
  inversion Hwf as [|? ? Hnotin Hrest]; subst.
  destruct (String.eqb k key); cbn; [assumption|].
  constructor; [|now apply IH].
  intros Hin. apply Hnotin. eapply od_delete_keys_incl; eassumption.
Qed.

Lemma od_delete_absent key d : ~ In key (map fst d) -> od_delete key d = d.
Proof.
  induction d as [|[k e] d IH]; cbn; intros Hnotin; [reflexivity|].
  destruct (String.eqb_spec k key) as [->|Hne].
  - exfalso. apply Hnotin. now left.
  - f_equal. apply IH. tauto.
Qed.

Lemma od_lookup_delete key d : od_wf d -> od_lookup key (od_delete key d) = None.
Proof.
  unfold od_wf. induction d as [|[k e] d IH]; cbn; intros Hwf; [reflexivity|].
  inversion Hwf as [|? ? Hnotin Hrest]; subst.
  destruct (String.eqb_spec k key) as [->|Hne].
  - now apply od_lookup_none_not_in.
  - cbn. destruct (String.eqb_spec k key); [contradiction|]. now apply IH.
Qed.

Lemma od_lookup_setitem key entry d : od_lookup key (od_setitem key entry d) = Some entry.
Proof.
  induction d as [|[k e] d IH]; cbn.
  - now rewrite String.eqb_refl.
  - destruct (String.eqb_spec k key) as [->|Hne]; cbn.
    + now rewrite String.eqb_refl.
    + destruct (String.eqb_spec k key); [contradiction | assumption].
Qed.

Lemma od_setitem_keys key entry d k :
  In k (map fst (od_setitem key entry d)) <-> k = key \/ In k (map fst d).
Proof.
  induction d as [|[k' e] d IH]; cbn.
  - intuition congruence.
  - destruct (String.eqb_spec k' key) as [->|Hne]; cbn.
    + intuition congruence.
    + rewrite IH. intuition congruence.
Qed.

Lemma od_setitem_wf key entry d : od_wf d -> od_wf (od_setitem key entry d).
Proof.
  unfold od_wf. induction d as [|[k e] d IH]; cbn; intros Hwf.
  - constructor; [intros [] | constructor].
  - inversion Hwf as [|? ? Hnotin Hrest]; subst.
    destruct (String.eqb_spec k key) as [->|Hne]; cbn.
    + now constructor.
    + constructor; [|now apply IH].
      rewrite od_setitem_keys. intros [Heq|Hin]; [now apply Hne | now apply Hnotin].
Qed.


(** After [move_to_end] the key is the youngest of the dictionary. *)
Lemma od_move_to_end_last key entry d :
  od_lookup key d = Some entry ->
  od_move_to_end key d = od_delete key d ++ [(key, entry)].
Proof. intros H. unfold od_move_to_end. now rewrite H. Qed.

(** Deleting keys that do not include the oldest one keeps the oldest entry
    in place. *)
Lemma fold_delete_cons keys k e d :
  ~ In k keys ->
  fold_left (fun acc key => od_delete key acc) keys ((k, e) :: d)
  = (k, e) :: fold_left (fun acc key => od_delete key acc) keys d.
Proof.
  revert d. induction keys as [|key keys IH]; intros d Hnotin; cbn [fold_left].
  - reflexivity.
  - cbn [od_delete]. destruct (String.eqb_spec k key) as [->|Hne].
    + exfalso. apply Hnotin. now left.
    + apply IH. intros Hin. apply Hnotin. now right.
Qed.

End DictFacts.

(** ** The bounded TTL cache *)

Section CacheFacts.

Variable V : Type.
Implicit Types (d : odict V) (c : MemoryCache V) (key : string).

Lemma expired_keys_incl now d k : In k (expired_keys now d) -> In k (map fst d).
Proof.
  unfold expired_keys. rewrite !in_map_iff.
  intros [kv [Hk Hin]]. apply filter_In in Hin. exists kv. tauto.
Qed.

(** The sweep keeps exactly the entries that are not expired, in order. *)
Lemma cleanup_expired_filter now d :
  od_wf d ->
  _cleanup_expired now d = filter (fun kv => negb (is_expired now (snd kv))) d.
Proof.
  unfold _cleanup_expired, od_wf.
  induction d as [|[k e] d IH]; intros Hwf; [reflexivity|].
  inversion Hwf as [|? ? Hnotin Hrest]; subst.
  unfold expired_keys, is_expired in *. cbn [filter snd map].
  destruct (Qle_bool (now - timestamp e) (ttl e)); cbn [negb map fold_left].
  - fold (expired_keys now d). rewrite fold_delete_cons.
    + f_equal. now apply IH.
    + intros Hin. apply Hnotin. eapply expired_keys_incl; eassumption.
  - cbn [od_delete]. rewrite String.eqb_refl. now apply IH.
Qed.

Lemma filter_wf (f : string * CacheEntry V -> bool) d : od_wf d -> od_wf (filter f d).
Proof.
  unfold od_wf. induction d as [|kv d IH]; cbn; intros Hwf; [assumption|].
  inversion Hwf as [|? ? Hnotin Hrest]; subst.
  destruct (f kv); cbn; [|now apply IH].
  constructor; [|now apply IH].
  intros Hin. apply Hnotin. apply in_map_iff in Hin as [x [Hx Hin]].
  apply filter_In in Hin. apply in_map_iff. exists x. tauto.
Qed.

(** The eviction loop drops a prefix of the dictionary, the oldest entries,
    and leaves room for one more entry; it completes when the capacity is
    positive. *)
Lemma evict_prefix (limit : Z) d :
  (0 < limit)%Z ->
  exists evicted kept,
    d = evicted ++ kept
    /\ evict limit d = Return kept
    /\ Z.of_nat (List.length kept) = Z.min (Z.of_nat (List.length d)) (limit - 1).
Proof.
  intros Hlimit. induction d as [|kv d IH].
  - exists [], []. cbn. destruct (Z.leb_spec limit 0); [lia|].
    repeat split. lia.
  - cbn [evict]. destruct (Z.leb_spec limit (Z.of_nat (List.length (kv :: d)))) as [Hfull|Hroom].
    + destruct IH as (evicted & kept & Hd & Hev & Hlen).
      exists (kv :: evicted), kept. repeat split.
      * cbn. now rewrite Hd.
      * assumption.
      * rewrite Hlen. cbn [List.length] in *. lia.
    + exists [], (kv :: d). repeat split. lia.
Qed.

(** Without capacity [put] cannot complete. *)
Lemma evict_no_capacity (limit : Z) d : (limit <= 0)%Z -> evict limit d = Raise KeyError.
Proof.
  intros Hlimit. induction d as [|kv d IH]; cbn [evict].
  - destruct (Z.leb_spec limit 0); [reflexivity | lia].
  - destruct (Z.leb_spec limit (Z.of_nat (List.length (kv :: d)))); [assumption | lia].
Qed.

Lemma evict_wf (limit : Z) d kept : od_wf d -> evict limit d = Return kept -> od_wf kept.
Proof.
  unfold od_wf. induction d as [|kv d IH]; cbn [evict]; intros Hwf Hev.
  - destruct (limit <=? 0)%Z; [discriminate|]. injection Hev as <-. constructor.
  - destruct (limit <=? Z.of_nat (List.length (kv :: d)))%Z.
    + inversion Hwf; subst. now apply IH.
    + now injection Hev as <-.
Qed.


End CacheFacts.

Lemma sample_cache_wf : od_wf (_data sample_cache).
Proof.
  unfold od_wf. cbn.
  repeat constructor; cbn; intuition discriminate.
Defined.


(** On the full sample cache the least recently used key ["a"] makes room
    for the new key, which becomes the most recently used one. *)
Example put_into_full_cache :
  put 10 10 "c" 3%nat None sample_cache
  = (Return tt,
     with_data sample_cache
       [("b"%string, sample_entry 2 5); ("c"%string, sample_entry 3 10)]).
Proof. reflexivity. Qed.

(** A [get] refreshes a key: after reading ["a"], the next [put] drops
    ["b"] instead. *)
Example get_then_put_into_full_cache :
  put 10 10 "c" 3%nat None (snd (get 7 "a" sample_cache))
  = (Return tt,
     with_data sample_cache
       [("a"%string, sample_entry 1 0); ("c"%string, sample_entry 3 10)]).
Proof. reflexivity. Qed.

(** X29.  A cache without capacity ([max_size] zero or negative) cannot
    store anything: [put] raises [KeyError] from [popitem], and by then it
    has emptied the cache. *)
Lemma put_without_capacity (V : Type) (c : MemoryCache V) (t1 t2 : Q)
    (key : string) (value : V) (ttl : option Q) :
  (max_size c <= 0)%Z ->
  put t1 t2 key value ttl c = (Raise KeyError, with_data c []).
Proof. intros H. unfold put. now rewrite evict_no_capacity. Qed.

Lemma ttl_or_default_nonzero (t default : Q) :
  ~ t == 0 -> ttl_or_default (Some t) default = t.
Proof.
  intros Hnz. unfold ttl_or_default.
  destruct (Qeq_bool t 0) eqn:Heq; [|reflexivity].
  apply Qeq_bool_iff in Heq. contradiction.
Qed.

(** X27.  The part of C5 that holds: for a TTL [t] other than zero, a [get] that
    follows [put(key, value, ttl=t)] returns [value] and moves [key] to the
    young end of the dictionary while at most [t] has elapsed, and returns
    nothing and deletes the entry once more than [t] has elapsed. *)
Lemma get_after_put (V : Type) (c : MemoryCache V) (sweep_time insert_time now : Q)
    (key : string) (value : V) (t : Q) :
  od_wf (_data c) ->
  (0 < max_size c)%Z ->
  ~ t == 0 ->
  exists c1,
    put sweep_time insert_time key value (Some t) c = (Return tt, c1)
    /\ (now - insert_time <= t ->
        get now key c1
        = (Some value,
           with_data c1
             (od_delete key (_data c1)
                ++ [(key, {| data := value; timestamp := insert_time; ttl := t |})])))
    /\ (t < now - insert_time ->
        get now key c1 = (None, with_data c1 (od_delete key (_data c1)))
        /\ od_lookup key (od_delete key (_data c1)) = None).
Proof.
  intros Hwf Hcap Hnz.
  destruct (evict_prefix (_cleanup_expired sweep_time (_data c)) Hcap)
    as (evicted & kept & _ & Hev & _).
  assert (Hkept : od_wf kept).
  { apply (evict_wf (max_size c) (d := _cleanup_expired sweep_time (_data c)));
      [|assumption].
    rewrite (cleanup_expired_filter _ Hwf). now apply filter_wf. }
  unfold put. rewrite Hev, (ttl_or_default_nonzero _ Hnz).
  eexists. split; [reflexivity|].
  unfold get. cbn [_data with_data]. rewrite od_lookup_setitem.
  unfold is_expired. cbn [timestamp ttl data].
  split.
  - intros Hfresh. apply Qle_bool_iff in Hfresh. rewrite Hfresh. cbn [negb].
    unfold od_move_to_end. now rewrite od_lookup_setitem.
  - intros Hstale.
    destruct (Qle_bool (now - insert_time) t) eqn:Hle.
    + apply Qle_bool_iff in Hle. lra.
    + cbn [negb]. split; [reflexivity|].
      apply od_lookup_delete. now apply od_setitem_wf.
Qed.

(** C5 at a TTL of zero.  [put("k", 7, ttl=0)] at time 0 on an empty cache
    stores the entry with the cache-wide default TTL of 300 ([0 or
    self.default_ttl]); one time unit later, strictly after the requested
    TTL has elapsed, [get("k")] still returns 7, and so it does until the
    default TTL is over. *)
Theorem put_zero_ttl_then_get :
  exists c1,
    put 0 0 "k" 7%nat (Some 0) empty_cache = (Return tt, c1)
    /\ od_lookup "k" (_data c1) = Some {| data := 7%nat; timestamp := 0; ttl := 300 |}
    /\ 0 < 1 - 0
    /\ fst (get 1 "k" c1) = Some 7%nat
    /\ fst (get 300 "k" c1) = Some 7%nat
    /\ fst (get 301 "k" c1) = None.
Proof.
  eexists. split; [vm_compute; reflexivity|].
  repeat split.
Qed.

(** ** The fetcher *)

Section HttpFacts.

Variable Soup : Type.
Variable env : Env Soup.
Implicit Types (s : HttpClient Soup) (url : string).

Lemma make_request_keeps_metrics url (timeout : Z) s :
  metrics (snd (_make_request env url timeout s)) = metrics s.
Proof.
  unfold _make_request.
  destruct (session_get env (net_calls s) url timeout) as [[status soup| | |] latency];
    cbn; try reflexivity.
  destruct ((400 <=? status) && (status <? 600))%Z; [|reflexivity].
  destruct (_ || _); reflexivity.
Qed.

(** The retry loop never touches the metrics: no branch of it calls
    [add_retry] or [add_request]. *)
Lemma retry_loop_keeps_metrics (A : Type) (config : RetryConfig) (func : M Soup A)
    (remaining attempt : nat) (last : option exn) s :
  (forall s0, metrics (snd (func s0)) = metrics s0) ->
  metrics (snd (retry_loop env config func remaining attempt last s)) = metrics s.
Proof.
  intros Hfunc. revert attempt last s.
  induction remaining as [|remaining IH]; intros attempt last s; cbn [retry_loop].
  - destruct last; reflexivity.
  - specialize (Hfunc s) as Hs. destruct (func s) as [[result|e] s1]; cbn [snd] in Hs.
    + destruct (0 <? attempt)%nat; cbn; assumption.
    + destruct (retryable_exceptions config e); [|cbn; assumption].
      destruct (Z.of_nat attempt =? max_attempts config - 1)%Z; [cbn; assumption|].
      unfold draw_delay, time_sleep. cbv zeta.
      destruct (_calculate_delay config _ attempt) as [delay|e'];
        [|cbn; assumption].
      destruct (Qle_bool 0 delay); destruct (jitter config);
        try (rewrite IH); cbn; assumption.
Qed.

Lemma execute_with_retry_keeps_metrics (A : Type) (config : RetryConfig)
    (func : M Soup A) s :
  (forall s0, metrics (snd (func s0)) = metrics s0) ->
  metrics (snd (execute_with_retry env config func s)) = metrics s.
Proof. apply retry_loop_keeps_metrics. Qed.

(** The [try] block of [get_page] either raises and leaves the metrics as
    they were, or returns a page and records one successful request. *)
Lemma fetch_and_store_metrics url (timeout : Z) (use_cache : bool) (start_time : Q) s :
  match fetch_and_store env url timeout use_cache start_time s with
  | (Raise _, s1) => metrics s1 = metrics s
  | (Return page, s1) =>
      page <> None
      /\ exists t, metrics s1 = add_request (metrics s) true t false
  end.
Proof.
  unfold fetch_and_store.
  pose proof (execute_with_retry_keeps_metrics (retry_config s)
                (_make_request env url timeout) s
                (make_request_keeps_metrics url timeout)) as Hkeep.
  destruct (execute_with_retry env (retry_config s) (_make_request env url timeout) s)
    as [[soup|e] s1]; cbn [snd] in Hkeep; [|assumption].
  destruct (cache s1) as [c|].
  - destruct use_cache.
    + destruct (put (clock s1) (clock s1) (_get_cache_key env url) soup None c)
        as [[[]|e] c']; cbn.
      * split; [discriminate|]. rewrite Hkeep. eexists; reflexivity.
      * assumption.
    + cbn. split; [discriminate|]. rewrite Hkeep. eexists; reflexivity.
  - cbn. split; [discriminate|]. rewrite Hkeep. eexists; reflexivity.
Qed.

Lemma get_page_body_metrics url (timeout : Z) (use_cache : bool) (start_time : Q) s :
  match get_page_body env url timeout use_cache start_time s with
  | (Raise _, s1) => metrics s1 = metrics s
  | (Return page, s1) =>
      page <> None
      /\ exists t from_cache, metrics s1 = add_request (metrics s) true t from_cache
  end.
Proof.
  assert (Hmiss : forall s0, metrics s0 = metrics s ->
            match fetch_and_store env url timeout use_cache start_time s0 with
            | (Raise _, s1) => metrics s1 = metrics s
            | (Return page, s1) =>
                page <> None
                /\ exists t from_cache,
                     metrics s1 = add_request (metrics s) true t from_cache
            end).
  { intros s0 Hs0.
    pose proof (fetch_and_store_metrics url timeout use_cache start_time s0) as H.
    destruct (fetch_and_store env url timeout use_cache start_time s0) as [[page|e] s1].
    - destruct H as [Hpage [t Ht]]. split; [assumption|].
      exists t, false. now rewrite Ht, Hs0.
    - now rewrite H. }
  unfold get_page_body.
  destruct (cache s) as [c|]; [|now apply Hmiss].
  destruct use_cache; [|now apply Hmiss].
  destruct (get (clock s) (_get_cache_key env url) c) as [[soup|] c'].
  - cbn. split; [discriminate|]. eexists _, true. reflexivity.
  - now apply Hmiss.
Qed.

(** C1.  For every URL, timeout, cache flag, client state and behaviour of
    the network, [get_page] returns: it never raises.  It records exactly
    one request.  Whenever its [try] block raises (retries exhausted, a
    fatal transport error, or any other exception), the result is [None]
    and the request is recorded as failed; otherwise the result is the page
    and the request is recorded as successful. *)
Theorem get_page_never_raises url (timeout : Z) (use_cache : bool) s :
  exists page s',
    get_page env url timeout use_cache s = (Return page, s')
    /\ total_requests (metrics s') = (total_requests (metrics s) + 1)%N
    /\ match fst (get_page_body env url timeout use_cache (clock s) s) with
       | Raise _ =>
           page = None
           /\ failed_requests (metrics s') = (failed_requests (metrics s) + 1)%N
           /\ successful_requests (metrics s') = successful_requests (metrics s)
       | Return fetched =>
           page = fetched /\ page <> None
           /\ successful_requests (metrics s') = (successful_requests (metrics s) + 1)%N
           /\ failed_requests (metrics s') = failed_requests (metrics s)
       end.
Proof.
  unfold get_page.
  pose proof (get_page_body_metrics url timeout use_cache (clock s) s) as H.
  destruct (get_page_body env url timeout use_cache (clock s) s) as [[page|e] s1];
    cbn [fst].
  - destruct H as [Hpage (t & from_cache & Hm)].
    exists page, s1. rewrite Hm. cbn. repeat split; assumption.
  - eexists None, _. split; [reflexivity|]. cbn. rewrite H. repeat split.
Qed.

(** No call of [get_page] changes [retry_attempts], whatever the number of
    retries it performs. *)
Lemma get_page_keeps_retry_attempts url (timeout : Z) (use_cache : bool) s :
  retry_attempts (metrics (snd (get_page env url timeout use_cache s)))
  = retry_attempts (metrics s).
Proof.
  unfold get_page.
  pose proof (get_page_body_metrics url timeout use_cache (clock s) s) as H.
  destruct (get_page_body env url timeout use_cache (clock s) s) as [[page|e] s1].
  - destruct H as [_ (t & from_cache & Hm)]. cbn [snd]. now rewrite Hm.
  - cbn. now rewrite H.
Qed.

End HttpFacts.

(** Retries exhausted: three timeouts, two sleeps, [None], one failure. *)
Example get_page_on_dead_network :
  exists s',
    get_page dead_env "u" 10 true (new_client nat) = (Return None, s')
    /\ net_calls s' = 3%nat
    /\ slept s' = [1; 1]
    /\ failed_requests (metrics s') = 1%N
    /\ successful_requests (metrics s') = 0%N.
Proof.
  eexists. split; [vm_compute; reflexivity|].
  repeat split.
Qed.

(** A fatal error: status 404 is not retried. *)
Example get_page_on_missing_page :
  exists s',
    get_page missing_env "u" 10 true (new_client nat) = (Return None, s')
    /\ net_calls s' = 1%nat
    /\ slept s' = []
    /\ failed_requests (metrics s') = 1%N.
Proof.
  eexists. split; [vm_compute; reflexivity|].
  repeat split.
Qed.

(** C8 on a request that needs one retry.  The first attempt times out, the
    retry loop logs the warning with the attempt number and the delay,
    sleeps and succeeds at the second attempt; the page is returned and
    [retry_attempts] of the client's metrics is still 0: the loop never
    calls [PerformanceMetrics.add_retry]. *)
Theorem retry_logged_but_not_counted :
  exists s',
    get_page flaky_env "u" 10 true (new_client nat) = (Return (Some 42%nat), s')
    /\ net_calls s' = 2%nat
    /\ slept s' = [1]
    /\ log s' = [(WARNING, MsgAttemptFailed 1 1 (RetryableError (ReasonTimeout "u")));
                 (DEBUG, MsgFetched "u");
                 (INFO, MsgSucceededAfter 2)]
    /\ retry_attempts (metrics s') = 0%N
    /\ retry_attempts (add_retry (metrics (new_client nat))) = 1%N.
Proof.
  eexists. split; [vm_compute; reflexivity|].
  repeat split.
Qed.

(** ** The traversal loop *)

Section TraversalFacts.

Variables World Page Item : Type.
Variable L : Loop World Page Item.
Implicit Types (p : Parser World) (c : Cursor Item) (evs : list page_event).

Lemma crawl_unfold fuel p c :
  crawl L fuel p c
  = if keep_going p c then
      match fuel, current_url c with
      | S fuel', Some url =>
        let page_count := (page_count c + 1)%Z in
        let '(soup, w1) := fetch L url (world p) in
        let p1 := set_world w1 p in
        match soup with
        | None =>
            let '(p2, failed) := _handle_page_failure page_count (failed_pages c) p1 in
            let '(next_url, w2) := _try_next_page_url L soup url (world p2) in
            prepend (FetchFailed url (consecutive_failures p2))
              (crawl L fuel' (set_world w2 p2)
                 {| current_url := next_url; page_count := page_count;
                    failed_pages := failed; collected := collected c |})
        | Some page =>
            match extract L page (world p1) with
            | (Return items, w2) =>
                let p2 := set_world w2 p1 in
                let p3 := match items with [] => p2 | _ => reset_failures p2 end in
                let all := merge L (collected c) items in
                let '(next_url, w3) := resolve L page url (world p3) in
                let p4 := set_world w3 p3 in
                let stop :=
                  {| current_url := Some url; page_count := page_count;
                     failed_pages := failed_pages c; collected := all |} in
                if truthy_url next_url then
                  match next_url with
                  | Some next =>
                      if String.eqb next url then
                        Some (p4, stop, [CycleDetected url (List.length items)])
                      else
                        let delay :=
                          delay_for L (consecutive_failures p4) page_count in
                        prepend (Advanced url (List.length items) next delay)
                          (crawl L fuel'
                             (set_world (sleep_with_jitter L delay (world p4)) p4)
                             {| current_url := Some next; page_count := page_count;
                                failed_pages := failed_pages c; collected := all |})
                  | None => Some (p4, stop, [Exhausted url (List.length items)])
                  end
                else Some (p4, stop, [Exhausted url (List.length items)])
            | (Raise e, w2) =>
                let '(p2, failed) :=
                  _handle_page_failure page_count (failed_pages c) (set_world w2 p1) in
                if _should_continue_after_error p2 then
                  let '(next_url, w3) := _try_next_page_url L (Some page) url (world p2) in
                  prepend (PageFailed url (consecutive_failures p2) e next_url)
                    (crawl L fuel' (set_world w3 p2)
                       {| current_url := next_url; page_count := page_count;
                          failed_pages := failed; collected := collected c |})
                else
                  Some (p2,
                        {| current_url := Some url; page_count := page_count;
                           failed_pages := failed; collected := collected c |},
                        [PageFailed url (consecutive_failures p2) e None])
            end
        end
      | _, _ => None
      end
    else Some (p, c, []).
Proof. destruct fuel; reflexivity. Qed.

(** A loop whose test fails performs no iteration. *)
Lemma crawl_stopped fuel p c :
  keep_going p c = false -> crawl L fuel p c = Some (p, c, []).
Proof. intros H. rewrite crawl_unfold, H. reflexivity. Qed.

Lemma prepend_some ev (r : option (Parser World * Cursor Item * list page_event))
    p' c' evs :
  prepend ev r = Some (p', c', evs) ->
  exists rest, evs = ev :: rest /\ r = Some (p', c', rest).
Proof.
  destruct r as [[[p0 c0] evs0]|]; cbn; [|discriminate].
  intros H. injection H as <- <- <-. now exists evs0.
Qed.

(** Every iteration is a transition; the events that follow are those of
    the loop resumed from the state the transition leads to. *)
Lemma crawl_inv fuel p c p' c' evs :
  crawl L fuel p c = Some (p', c', evs) ->
  (keep_going p c = false /\ evs = [] /\ p' = p /\ c' = c)
  \/ exists fuel' url ev rest next,
       fuel = S fuel' /\ current_url c = Some url /\ keep_going p c = true
       /\ evs = ev :: rest /\ event_url ev = url
       /\ transition L p c url ev next
       /\ match next with
          | Some (p2, c2) => crawl L fuel' p2 c2 = Some (p', c', rest)
          | None => rest = []
          end.
Proof.
  rewrite crawl_unfold.
  destruct (keep_going p c) eqn:Hgo.
  2:{ intros H. injection H as <- <- <-. left. auto. }
  destruct fuel as [|fuel']; [discriminate|].
  destruct (current_url c) as [url|] eqn:Hurl; [|discriminate].
  intros H. right. exists fuel', url.
  cbv zeta in H.
  destruct (fetch L url (world p)) as [[page|] w1].
  - destruct (extract L page (world (set_world w1 p))) as [[items|e] w2].
    + destruct (resolve L page url _) as [next_url w3] eqn:Hres.
      assert (Hcf : consecutive_failures
                      (match items with
                       | [] => set_world w2 (set_world w1 p)
                       | _ :: _ => reset_failures (set_world w2 (set_world w1 p))
                       end)
                    = if Nat.eqb (List.length items) 0
                      then consecutive_failures p else 0%Z)
        by (destruct items; reflexivity).
      assert (Hint : is_interrupted
                       (match items with
                        | [] => set_world w2 (set_world w1 p)
                        | _ :: _ => reset_failures (set_world w2 (set_world w1 p))
                        end)
                     = is_interrupted p)
        by (destruct items; reflexivity).
      destruct (truthy_url next_url) eqn:Htruthy.
      * destruct next_url as [next|]; [|discriminate].
        destruct (String.eqb_spec next url) as [->|Hne].
        -- injection H as <- <- <-.
           eexists _, [], None. repeat split; constructor.
        -- apply prepend_some in H as [rest [-> Hrest]].
           eexists _, rest, (Some (_, _)).
           do 5 (split; [reflexivity|]). split; [|exact Hrest].
           match goal with
           | |- transition _ _ _ _ (Advanced _ _ _ (delay_for _ ?cf _)) (Some (?p2, _)) =>
               change cf with (consecutive_failures p2)
           end.
           constructor; cbn; try assumption; reflexivity.
      * injection H as <- <- <-.
        eexists _, [], None. repeat split; constructor.
    + cbn [_handle_page_failure] in H.
      unfold _should_continue_after_error in H. cbn in H.
      unfold keep_going in Hgo. apply andb_prop in Hgo as [Hgo Hint].
      destruct (is_interrupted p) eqn:Hip; [discriminate|].
      rewrite andb_true_r in H.
      destruct (Z.ltb_spec (consecutive_failures p + 1) Config.MAX_CONSECUTIVE_FAILURES)
        as [Hlt|Hge].
      * destruct (resolve L page url w2) as [next_url w3].
        apply prepend_some in H as [rest [-> Hrest]].
        eexists _, rest, (Some (_, _)).
        do 5 (split; [reflexivity|]). split; [|exact Hrest].
        match goal with
        | |- transition _ _ _ _ (PageFailed _ _ _ ?n) (Some (_, ?c2)) =>
            change n with (current_url c2)
        end.
        constructor; cbn; auto.
      * injection H as <- <- <-.
        eexists _, [], None. repeat split. now constructor.
  - cbn [_handle_page_failure _try_next_page_url] in H. cbn in H.
    apply prepend_some in H as [rest [-> Hrest]].
    eexists _, rest, (Some (_, _)).
    do 5 (split; [reflexivity|]). split; [|exact Hrest].
    constructor; cbn; auto.
Qed.

(** The page budget bounds the number of iterations: the loop returns. *)
Lemma crawl_terminates fuel p c :
  (Z.to_nat (Config.MAX_PAGES - page_count c) <= fuel)%nat ->
  exists r, crawl L fuel p c = Some r.
Proof.
  revert p c. induction fuel as [|fuel IH]; intros p c Hfuel; rewrite crawl_unfold.
  - destruct (keep_going p c) eqn:Hgo; [|eexists; reflexivity].
    unfold keep_going in Hgo. apply andb_prop in Hgo as [Hgo _].
    apply andb_prop in Hgo as [_ Hpages]. apply Z.ltb_lt in Hpages. lia.
  - destruct (keep_going p c) eqn:Hgo; [|eexists; reflexivity].
    unfold keep_going in Hgo. apply andb_prop in Hgo as [Hgo _].
    apply andb_prop in Hgo as [Hurl Hpages]. apply Z.ltb_lt in Hpages.
    destruct (current_url c) as [url|]; [|discriminate].
    assert (Hnext : forall p2 c2 ev, page_count c2 = (page_count c + 1)%Z ->
              exists r, prepend ev (crawl L fuel p2 c2) = Some r).
    { intros p2 c2 ev Hc2. destruct (IH p2 c2) as [[[p3 c3] evs] Hr].
      - rewrite Hc2. lia.
      - rewrite Hr. eexists; reflexivity. }
    cbv zeta.
    destruct (fetch L url (world p)) as [[page|] w1].
    + destruct (extract L page _) as [[items|e] w2].
      * destruct (resolve L page url _) as [next_url w3].
        destruct (truthy_url next_url); [|eexists; reflexivity].
        destruct next_url as [next|]; [|eexists; reflexivity].
        destruct (String.eqb next url); [eexists; reflexivity|].
        now apply Hnext.
      * cbn [_handle_page_failure].
        destruct (_should_continue_after_error _); [|eexists; reflexivity].
        destruct (_try_next_page_url L (Some page) url _) as [next_url w3].
        now apply Hnext.
    + cbn [_handle_page_failure _try_next_page_url]. now apply Hnext.
Qed.

End TraversalFacts.

(** ** The iterations of a traversal *)

Section TraceFacts.

Variables World Page Item : Type.
Variable L : Loop World Page Item.
Implicit Types (p : Parser World) (c : Cursor Item) (evs : list page_event).

Lemma no_url_stops p c : current_url c = None -> keep_going p c = false.
Proof. intros H. unfold keep_going. now rewrite H. Qed.

(** After a failed fetch the loop is left at its next test. *)
Lemma fetch_failed_stops fuel p c p' c' url n rest :
  crawl L fuel p c = Some (p', c', FetchFailed url n :: rest) -> rest = [].
Proof.
  intros H. apply crawl_inv in H as [(_ & Hnil & _)|H]; [discriminate|].
  destruct H as (fuel' & url' & ev & rest' & next & _ & _ & _ & Hevs & _ & Hstep & Hnext).
  injection Hevs as <- <-.
  inversion Hstep as [p2 c2 _ _ Hurl _ _ | | | | | ]; subst.
  rewrite (crawl_stopped L fuel' p2 c2 (no_url_stops p2 c2 Hurl)) in Hnext.
  now injection Hnext as _ _ <-.
Qed.

(** The first iteration of a trace, when it is a failure, leaves the
    counter one above its value at the loop test. *)
Lemma first_failure_counts fuel p c p' c' ev rest :
  crawl L fuel p c = Some (p', c', ev :: rest) ->
  is_failure ev = true ->
  failures_after ev = Some (consecutive_failures p + 1)%Z.
Proof.
  intros H Hfail. apply crawl_inv in H as [(_ & Hnil & _)|H]; [discriminate|].
  destruct H as (fuel' & url' & ev' & rest' & next & _ & _ & _ & Hevs & _ & Hstep & _).
  injection Hevs as <- <-.
  inversion Hstep; subst; try reflexivity; discriminate.
Qed.

(** The breaker at the head of a trace. *)
Lemma breaker_head fuel p c p' c' ev rest n :
  crawl L fuel p c = Some (p', c', ev :: rest) ->
  failures_after ev = Some n ->
  (Config.MAX_CONSECUTIVE_FAILURES <= n)%Z ->
  rest = [].
Proof.
  intros H Hn Hmax. pose proof H as H0.
  apply crawl_inv in H as [(_ & Hnil & _)|H]; [discriminate|].
  destruct H as (fuel' & url' & ev' & rest' & next & _ & _ & _ & Hevs & _ & Hstep & Hnext).
  injection Hevs as <- <-.
  inversion Hstep; subst; cbn in Hn; try discriminate.
  - eapply fetch_failed_stops; eassumption.
  - injection Hn as <-. lia.
  - assumption.
Qed.

(** Every suffix of a trace is the trace of the loop resumed from a later
    state; a counter that was non-negative still is. *)
Lemma trace_suffix pre : forall fuel p c p' c' ev post,
  crawl L fuel p c = Some (p', c', pre ++ ev :: post) ->
  exists fuel2 p2 c2,
    crawl L fuel2 p2 c2 = Some (p', c', ev :: post)
    /\ ((0 <= consecutive_failures p)%Z -> (0 <= consecutive_failures p2)%Z).
Proof.
  induction pre as [|x pre IH]; intros fuel p c p' c' ev post H.
  - exists fuel, p, c. auto.
  - cbn [app] in H. apply crawl_inv in H as [(_ & Hnil & _)|H]; [discriminate|].
    destruct H as (fuel' & url & ev' & rest & next & _ & _ & _ & Hevs & _ & Hstep & Hnext).
    injection Hevs as <- <-.
    destruct next as [[p2 c2]|].
    + destruct (IH _ _ _ _ _ _ _ Hnext) as (fuel2 & p3 & c3 & Hcrawl & Hcf).
      exists fuel2, p3, c3. split; [assumption|].
      intros Hp. apply Hcf.
      inversion Hstep as [? ? Hcf2| ? ? ? Hcf2 | | | | ? ? ? ? ? Hcf2]; subst;
        rewrite Hcf2; try lia.
      destruct (Nat.eqb _ 0); lia.
    + exfalso. eapply app_cons_not_nil. symmetry. eassumption.
Qed.

(** A failed iteration that reaches the threshold is the last one. *)
Lemma breaker_anywhere fuel p c p' c' pre ev post n :
  crawl L fuel p c = Some (p', c', pre ++ ev :: post) ->
  failures_after ev = Some n ->
  (Config.MAX_CONSECUTIVE_FAILURES <= n)%Z ->
  post = [].
Proof.
  intros H Hn Hmax.
  destruct (@trace_suffix _ _ _ _ _ _ _ _ H) as (fuel2 & p2 & c2 & Hcrawl & _).
  eapply breaker_head; eassumption.
Qed.

(** Failed iterations in a row count up from the counter at the start of
    the row. *)
Lemma failure_run_counts run : forall fuel p c p' c' ev post,
  crawl L fuel p c = Some (p', c', (run ++ [ev]) ++ post) ->
  Forall (fun ev => is_failure ev = true) (run ++ [ev]) ->
  failures_after ev
  = Some (consecutive_failures p + Z.of_nat (List.length run) + 1)%Z.
Proof.
  induction run as [|x run IH]; intros fuel p c p' c' ev post H Hall.
  - cbn in H. cbn [List.length Z.of_nat]. rewrite Z.add_0_r.
    eapply first_failure_counts; [eassumption|].
    now inversion Hall.
  - cbn [app] in H, Hall. inversion Hall as [|? ? Hx Hrest]; subst.
    apply crawl_inv in H as [(_ & Hnil & _)|H]; [discriminate|].
    destruct H as (fuel' & url & ev' & rest & next & _ & _ & _ & Hevs & _ & Hstep & Hnext).
    injection Hevs as <- <-.
    inversion Hstep as [p2 c2 _ _ Hurl| e p2 c2 Hcf2 | | | | ]; subst;
      try discriminate.
    + rewrite (crawl_stopped L fuel' p2 c2 (no_url_stops p2 c2 Hurl)) in Hnext.
      injection Hnext as _ _ Hnil. exfalso.
      destruct run; discriminate Hnil.
    + rewrite (IH _ _ _ _ _ _ _ Hnext Hrest), Hcf2.
      f_equal. cbn [List.length]. lia.
    + exfalso. destruct run; discriminate Hnext.
Qed.

(** The properties of the breaker hold of every trace of the loop. *)
Lemma crawl_breaker fuel p c p' c' evs :
  crawl L fuel p c = Some (p', c', evs) ->
  breaker_respected (consecutive_failures p) evs.
Proof.
  intros H. split.
  - intros pre ev post n -> Hn Hmax. eapply breaker_anywhere; eassumption.
  - intros Hcf pre run post -> Hall Hlen.
    destruct (exists_last (l := run)) as (run0 & ev & ->).
    { intros ->. cbn in Hlen. unfold Config.MAX_CONSECUTIVE_FAILURES in Hlen. lia. }
    assert (Hshape : pre ++ (run0 ++ [ev]) ++ post
                     = (pre ++ run0) ++ ev :: post)
      by now rewrite <- !app_assoc.
    destruct run0 as [|x run0].
    + cbn [app] in H.
      destruct (@trace_suffix _ _ _ _ _ _ _ _ H) as (fuel2 & p2 & c2 & Hcrawl & Hcf2).
      pose proof (@first_failure_counts _ _ _ _ _ _ _ Hcrawl) as Hn.
      eapply breaker_head; [exact Hcrawl | apply Hn; now inversion Hall |].
      specialize (Hcf2 Hcf). cbn in Hlen. lia.
    + assert (Hsplit : pre ++ ((x :: run0) ++ [ev]) ++ post
                       = pre ++ x :: ((run0 ++ [ev]) ++ post)) by reflexivity.
      rewrite Hsplit in H.
      destruct (@trace_suffix _ _ _ _ _ _ _ _ H) as (fuel2 & p2 & c2 & Hcrawl & Hcf2).
      specialize (Hcf2 Hcf).
      change (x :: (run0 ++ [ev]) ++ post) with (((x :: run0) ++ [ev]) ++ post) in Hcrawl.
      pose proof (@failure_run_counts _ _ _ _ _ _ _ _ Hcrawl Hall) as Hn.
      rewrite <- app_assoc in Hcrawl. cbn [app] in Hcrawl.
      change (x :: run0 ++ ev :: post) with ((x :: run0) ++ ev :: post) in Hcrawl.
      eapply breaker_anywhere; [exact Hcrawl | exact Hn |].
      rewrite length_app in Hlen. cbn [List.length] in Hlen |- *. lia.
Qed.

(** A failed fetch is the last iteration of every trace of the loop. *)
Lemma crawl_fetch_failure_final fuel p c p' c' evs :
  crawl L fuel p c = Some (p', c', evs) -> fetch_failure_is_final evs.
Proof.
  intros H pre url n post ->.
  destruct (@trace_suffix _ _ _ _ _ _ _ _ H) as (fuel2 & p2 & c2 & Hcrawl & _).
  eapply fetch_failed_stops; eassumption.
Qed.

(** The normal path only moves the cursor to a different URL, and the next
    iteration fetches the URL it moved to. *)
Lemma advance_changes_url fuel p c p' c' pre url records next delay post :
  crawl L fuel p c = Some (p', c', pre ++ Advanced url records next delay :: post) ->
  next <> url
  /\ match post with
     | ev :: _ => event_url ev = next
     | [] => True
     end.
Proof.
  intros H.
  destruct (@trace_suffix _ _ _ _ _ _ _ _ H) as (fuel2 & p2 & c2 & Hcrawl & _).
  apply crawl_inv in Hcrawl as [(_ & Hnil & _)|Hc]; [discriminate|].
  destruct Hc as (fuel' & url' & ev' & rest & nxt & _ & _ & _ & Hevs & _ & Hstep & Hnext).
  injection Hevs as <- <-.
  inversion Hstep as [ | | | | | ? ? p3 c3 Hne _ _ Hurl]; subst.
  split; [assumption|].
  destruct post as [|ev post]; [exact I|].
  apply crawl_inv in Hnext as [(_ & Hnil & _)|Hc]; [discriminate|].
  destruct Hc as (? & url2 & ev2 & ? & ? & _ & Hurl2 & _ & Hevs & Heq & _).
  injection Hevs as <- <-. rewrite Hurl in Hurl2. injection Hurl2 as <-.
  exact Heq.
Qed.

(** A traversal returns: the page budget is enough fuel. *)
Lemma traverse_returns url p :
  exists items p' c' evs,
    crawl L (Z.to_nat Config.MAX_PAGES) p (start Item url) = Some (p', c', evs)
    /\ traverse L url p = Some (items, p', evs).
Proof.
  destruct (@crawl_terminates _ _ _ L (Z.to_nat Config.MAX_PAGES) p (start Item url))
    as [[[p' c'] evs] H]; [cbn; lia|].
  exists (finish L c'), p', c', evs. split; [assumption|].
  unfold traverse. now rewrite H.
Qed.

End TraceFacts.

(** ** Circuit breaker, failed fetches and the cycle guard *)

Lemma breaker_respected_nil (failures0 : Z) : breaker_respected failures0 [].
Proof.
  split.
  - intros pre ev post n H. destruct pre; discriminate H.
  - intros _ pre run post H _ _. symmetry in H.
    apply app_eq_nil in H as [_ H]. now apply app_eq_nil in H as [_ H].
Qed.

(** C2.  Every traversal, of a forum listing ([parse_forum]) or of a topic
    ([parse_topic]), returns, and in its sequence of iterations a failed
    iteration that brings [consecutive_failures] to
    [MAX_CONSECUTIVE_FAILURES] or more is the last one: no fetch follows
    it, whatever is left of the page budget.  In particular, when the
    counter starts non-negative, [MAX_CONSECUTIVE_FAILURES] failed
    iterations in a row are never followed by another iteration. *)
Theorem circuit_breaker (World Page PostData Post : Type)
    (F : ForumDeps World Page) (T : TopicDeps World Page PostData Post)
    (forum_url topic_url : string) (p : Parser World) :
  (exists r p' evs,
     parse_forum F forum_url p = Some (r, p', evs)
     /\ breaker_respected (consecutive_failures p) evs)
  /\ (exists posts p' evs,
        parse_topic T topic_url p = Some (posts, p', evs)
        /\ breaker_respected (consecutive_failures p) evs).
Proof.
  split.
  - unfold parse_forum. destruct (_validate_forum_url forum_url).
    + destruct (traverse_returns (forum_loop F) forum_url p)
        as (items & p' & c' & evs & Hcrawl & Htraverse).
      rewrite Htraverse. exists (Return items), p', evs.
      split; [reflexivity|]. eapply crawl_breaker; eassumption.
    + exists (Raise InvalidUrlError), p, []. split; [reflexivity|].
      apply breaker_respected_nil.
  - unfold parse_topic.
    destruct (traverse_returns (topic_loop T) topic_url p)
      as (items & p' & c' & evs & Hcrawl & Htraverse).
    exists items, p', evs. split; [assumption|].
    eapply crawl_breaker; eassumption.
Qed.

(** On the forum whose extraction always raises, the traversal stops after
    the fifth page although seven pages exist and fifty are allowed. *)
Lemma circuit_breaker_witness :
  exists p' evs,
    parse_forum broken_forum first_url (new_parser tt) = Some (Return [], p', evs)
    /\ List.length evs = 5%nat
    /\ (0 <= consecutive_failures (new_parser tt))%Z
    /\ (forall pre run post,
          evs = pre ++ run ++ post ->
          Forall (fun ev => is_failure ev = true) run ->
          (Config.MAX_CONSECUTIVE_FAILURES <= Z.of_nat (List.length run))%Z ->
          post = []).
Proof.
  destruct (circuit_breaker broken_forum broken_topic first_url first_url
              (new_parser tt)) as [(r & p' & evs & Hrun & Hbreaker) _].
  vm_compute in Hrun. injection Hrun as <- <- <-.
  eexists _, _. split; [vm_compute; reflexivity|].
  split; [reflexivity|].
  split; [cbn; lia|].
  apply (proj2 Hbreaker). cbn. lia.
Defined.

(** C3 on the recovery path.  The extraction of the page at [first_url]
    raises, and the resolver answers [first_url] itself.  The statement
    [current_url = self._try_next_page_url(...)] of the [except] branch has
    no cycle test, unlike the normal path: the cursor is set to the URL it
    already had, and the same URL is fetched five times, until the circuit
    breaker stops the traversal. *)
Theorem recovery_path_refetches_same_url :
  exists p',
    parse_forum self_linked_forum first_url (new_parser tt)
    = Some (Return [], p',
            [PageFailed first_url 1 ContentExtractionError (Some first_url);
             PageFailed first_url 2 ContentExtractionError (Some first_url);
             PageFailed first_url 3 ContentExtractionError (Some first_url);
             PageFailed first_url 4 ContentExtractionError (Some first_url);
             PageFailed first_url 5 ContentExtractionError None])
    /\ fst (get_next_page_url self_linked_forum 0%nat first_url tt) = Some first_url.
Proof.
  eexists. split; [vm_compute; reflexivity | reflexivity].
Qed.



(** The seven clean pages of the healthy forum: six advances and the
    delays handed to [sleep_with_jitter].  The delay drops to 0.8 with the
    sixth page, the first one whose number exceeds 5. *)
Example adaptive_delay_on_a_clean_listing :
  exists topics p' evs,
    parse_forum healthy_forum first_url (new_parser tt) = Some (Return topics, p', evs)
    /\ List.length topics = 7%nat
    /\ map (fun ev => match ev with
                      | Advanced _ _ _ delay => Some delay
                      | _ => None
                      end) evs
       = [Some 1; Some 1; Some 1; Some 1; Some 1; Some 0.8; None].
Proof.
  eexists _, _, _. split; [vm_compute; reflexivity|].
  split; reflexivity.
Qed.

(* ================================================================== *)
(** * Further properties of the modelled code *)
(* ================================================================== *)

(** ** More on dictionaries *)

Section MoreDictFacts.

Variable E : Type.
Implicit Types (d : Py.dict E) (key : string).

Lemma od_lookup_delete_other key key' d :
  key' <> key -> od_lookup key' (od_delete key d) = od_lookup key' d.
Proof.
  intros Hne. induction d as [|[k e] d IH]; cbn; [reflexivity|].
  destruct (String.eqb_spec k key) as [->|Hk]; cbn.
  - destruct (String.eqb_spec key key'); [congruence | reflexivity].
  - now rewrite IH.
Qed.

Lemma od_lookup_app key d d' :
  od_lookup key (d ++ d')
  = match od_lookup key d with
    | Some e => Some e
    | None => od_lookup key d'
    end.
Proof.
  induction d as [|[k e] d IH]; cbn; [reflexivity|].
  destruct (String.eqb k key); [reflexivity | assumption].
Qed.

Lemma od_lookup_setitem_other key key' entry d :
  key' <> key -> od_lookup key' (od_setitem key entry d) = od_lookup key' d.
Proof.
  intros Hne. induction d as [|[k e] d IH]; cbn.
  - destruct (String.eqb_spec key key'); [congruence | reflexivity].
  - destruct (String.eqb_spec k key) as [->|Hk]; cbn.
    + destruct (String.eqb_spec key key'); [congruence | reflexivity].
    + now rewrite IH.
Qed.

Lemma od_lookup_move_to_end key key' d :
  od_wf d -> od_lookup key' (od_move_to_end key d) = od_lookup key' d.
Proof.
  intros Hwf. unfold od_move_to_end.
  destruct (od_lookup key d) as [e|] eqn:Hkey; [|reflexivity].
  rewrite od_lookup_app. destruct (String.eqb_spec key key') as [<-|Hne].
  - rewrite (od_lookup_delete key Hwf). cbn. now rewrite String.eqb_refl.
  - rewrite od_lookup_delete_other by congruence.
    destruct (od_lookup key' d); [reflexivity|].
    cbn. destruct (String.eqb_spec key key'); [contradiction | reflexivity].
Qed.

Lemma od_delete_length key d :
  (List.length (od_delete key d) <= List.length d)%nat.
Proof.
  induction d as [|[k e] d IH]; cbn; [lia|].
  destruct (String.eqb k key); cbn; lia.
Qed.

Lemma od_delete_present_length key d e :
  od_lookup key d = Some e -> S (List.length (od_delete key d)) = List.length d.
Proof.
  induction d as [|[k e'] d IH]; cbn; [discriminate|].
  destruct (String.eqb k key); cbn; [reflexivity|].
  intros H. now rewrite IH.
Qed.

Lemma od_move_to_end_wf key d : od_wf d -> od_wf (od_move_to_end key d).
Proof.
  intros Hwf. unfold od_move_to_end.
  destruct (od_lookup key d) as [e|] eqn:Hkey; [|assumption].
  unfold od_wf. rewrite map_app. cbn.
  apply NoDup_app; [now apply od_delete_wf | repeat constructor; intros [] |].
  intros k Hin [Hk|[]]. subst k.
  apply (od_lookup_none_not_in key (od_delete key d)); [|assumption].
  now apply od_lookup_delete.
Qed.

End MoreDictFacts.

(** ** More on the cache *)

Section MoreCacheFacts.

Variable V : Type.
Implicit Types (d : odict V) (c : MemoryCache V) (key : string).

(** X1.  [get] returns a value exactly when the key is present and its
    entry has not expired at the time of the call; the value is the one
    stored in the entry. *)
Theorem get_returns_exactly_fresh_entries c (now : Q) key (value : V) :
  fst (get now key c) = Some value
  <-> exists entry,
        od_lookup key (_data c) = Some entry
        /\ data entry = value
        /\ now - timestamp entry <= ttl entry.
Proof.
  unfold get, is_expired.
  destruct (od_lookup key (_data c)) as [entry|].
  - destruct (Qle_bool (now - timestamp entry) (ttl entry)) eqn:Hle; cbn.
    + apply Qle_bool_iff in Hle. split.
      * intros H. injection H as <-. now exists entry.
      * intros (e & He & <- & _). now injection He as <-.
    + split; [discriminate|].
      intros (e & He & _ & Hfresh). injection He as <-.
      apply Qle_bool_iff in Hfresh. congruence.
  - cbn. split; [discriminate|]. intros (e & He & _). discriminate.
Qed.

(** X2.  A [get] on one key leaves the entries of all other keys as they
    were, whether it hits, misses or expires its own entry, and it never
    makes the dictionary longer. *)
Theorem get_leaves_other_keys c (now : Q) key key' :
  od_wf (_data c) ->
  key' <> key ->
  od_lookup key' (_data (snd (get now key c))) = od_lookup key' (_data c)
  /\ (List.length (_data (snd (get now key c))) <= List.length (_data c))%nat.
Proof.
  intros Hwf Hne. unfold get.
  destruct (od_lookup key (_data c)) as [entry|] eqn:Hkey; [|cbn; split; [reflexivity | lia]].
  destruct (is_expired now entry); cbn.
  - split; [now apply od_lookup_delete_other | apply od_delete_length].
  - split; [now apply od_lookup_move_to_end|].
    unfold od_move_to_end. rewrite Hkey, length_app. cbn.
    rewrite <- (od_delete_present_length key (_data c) Hkey). lia.
Qed.

(** X3.  Lazy expiry: a [get] on an entry older than its TTL returns
    nothing and deletes the entry, so that every later [get] of the key
    misses, whatever the time, and the dictionary is one entry shorter. *)
Theorem expired_entry_is_deleted_by_get c (now : Q) key (entry : CacheEntry V) :
  od_wf (_data c) ->
  od_lookup key (_data c) = Some entry ->
  ttl entry < now - timestamp entry ->
  fst (get now key c) = None
  /\ (forall later : Q, get later key (snd (get now key c)) = (None, snd (get now key c)))
  /\ S (List.length (_data (snd (get now key c)))) = List.length (_data c).
Proof.
  intros Hwf Hkey Hold. unfold get at 1 3 4 5, is_expired. rewrite Hkey.
  destruct (Qle_bool (now - timestamp entry) (ttl entry)) eqn:Hle.
  { apply Qle_bool_iff in Hle. lra. }
  cbn. split; [reflexivity|]. split.
  - intros later. unfold get. cbn. now rewrite (od_lookup_delete key Hwf).
  - eapply od_delete_present_length; eassumption.
Qed.

(** X4.  When [put] is given no TTL, or a TTL of zero, the entry lives for
    the default TTL of the cache: a following [get] returns the value while
    at most [default_ttl] has elapsed since the insertion and nothing
    afterwards. *)
Theorem put_without_ttl_uses_default c (sweep_time insert_time now : Q) key
    (value : V) (ttl : option Q) :
  od_wf (_data c) ->
  (0 < max_size c)%Z ->
  ttl = None \/ ttl = Some 0 ->
  exists c1,
    put sweep_time insert_time key value ttl c = (Return tt, c1)
    /\ (now - insert_time <= default_ttl c -> fst (get now key c1) = Some value)
    /\ (default_ttl c < now - insert_time -> fst (get now key c1) = None).
Proof.
  intros Hwf Hcap Httl.
  destruct (evict_prefix (_cleanup_expired sweep_time (_data c)) Hcap)
    as (evicted & kept & _ & Hev & _).
  assert (Heff : ttl_or_default ttl (default_ttl c) = default_ttl c)
    by (destruct Httl as [->| ->]; reflexivity).
  unfold put. rewrite Hev, Heff. eexists. split; [reflexivity|].
  unfold get. cbn [_data with_data]. rewrite od_lookup_setitem.
  unfold is_expired. cbn [timestamp Models.ttl data].
  destruct (Qle_bool (now - insert_time) (default_ttl c)) eqn:Hle; cbn.
  - split; [reflexivity|]. apply Qle_bool_iff in Hle. intros H. lra.
  - split; [|reflexivity]. intros H. apply Qle_bool_iff in H. congruence.
Qed.

Lemma suffix_of_snoc (A : Type) (l evicted kept : list A) (x : A) :
  l ++ [x] = evicted ++ kept ->
  kept <> [] ->
  exists kept0, kept = kept0 ++ [x] /\ l = evicted ++ kept0.
Proof.
  intros Heq Hne.
  destruct (exists_last Hne) as (kept0 & y & ->).
  rewrite app_assoc in Heq. apply app_inj_tail in Heq as [-> ->].
  now exists kept0.
Qed.

(** X5.  Least recently used means read as well as written: in a cache
    that can hold two entries or more, the key that was just read by a
    successful [get] is not the one dropped by the next [put] of another
    key (as long as its entry has not expired when that [put] sweeps). *)
Theorem key_just_read_survives_put c (now sweep_time insert_time : Q) key key'
    (value : V) (value' : V) (ttl' : option Q) (entry : CacheEntry V) :
  od_wf (_data c) ->
  (2 <= max_size c)%Z ->
  od_lookup key (_data c) = Some entry ->
  fst (get now key c) = Some value ->
  sweep_time - timestamp entry <= ttl entry ->
  key' <> key ->
  exists c2,
    put sweep_time insert_time key' value' ttl' (snd (get now key c)) = (Return tt, c2)
    /\ od_lookup key (_data c2) = Some entry.
Proof.
  intros Hwf Hcap Hkey Hget Hfresh Hne.
  assert (Hdata : _data (snd (get now key c)) = od_delete key (_data c) ++ [(key, entry)]).
  { unfold get in *. rewrite Hkey in *.
    destruct (is_expired now entry); [discriminate Hget|].
    cbn. unfold od_move_to_end. now rewrite Hkey. }
  assert (Hwf1 : od_wf (od_delete key (_data c) ++ [(key, entry)])).
  { pose proof (od_move_to_end_wf key Hwf) as H.
    unfold od_move_to_end in H. now rewrite Hkey in H. }
  assert (Hgone : od_lookup key (od_delete key (_data c)) = None)
    by now apply od_lookup_delete.
  unfold put. rewrite Hdata. cbn [max_size default_ttl with_data].
  assert (Hcap1 : (0 < max_size (snd (get now key c)))%Z).
  { unfold get. rewrite Hkey. destruct (is_expired now entry); cbn; lia. }
  assert (Hmax : max_size (snd (get now key c)) = max_size c).
  { unfold get. rewrite Hkey. destruct (is_expired now entry); reflexivity. }
  rewrite (cleanup_expired_filter _ Hwf1), filter_app. cbn [filter snd].
  assert (Hnot : is_expired sweep_time entry = false).
  { unfold is_expired. apply Qle_bool_iff in Hfresh. now rewrite Hfresh. }
  rewrite Hnot. cbn [negb].
  set (older := filter _ (od_delete key (_data c))).
  destruct (evict_prefix (older ++ [(key, entry)]) Hcap1)
    as (evicted & kept & Hsplit & Hev & Hlen).
  rewrite Hev. eexists. split; [reflexivity|]. cbn [_data with_data].
  assert (Hkept : kept <> []).
  { intros ->. cbn in Hlen. rewrite length_app in Hlen. cbn in Hlen. lia. }
  destruct (suffix_of_snoc _ _ _ Hsplit Hkept) as (kept0 & -> & Holder).
  rewrite od_lookup_setitem_other by congruence.
  rewrite od_lookup_app.
  assert (Hnone : od_lookup key kept0 = None).
  { apply od_lookup_none_not_in. intros Hin.
    apply (od_lookup_none_not_in key (od_delete key (_data c))); [assumption|].
    assert (Hin' : In key (map fst older)).
    { rewrite Holder, map_app. apply in_or_app. now right. }
    unfold older in Hin'. apply in_map_iff in Hin' as (kv & Hk & Hkv).
    apply filter_In in Hkv as [Hkv _]. apply in_map_iff. now exists kv. }
  rewrite Hnone. cbn. now rewrite String.eqb_refl.
Qed.

End MoreCacheFacts.

Lemma get_leaves_other_keys_witness :
  od_lookup "b" (_data (snd (get 7 "a" sample_cache)))
    = od_lookup "b" (_data sample_cache)
  /\ (List.length (_data (snd (get 7 "a" sample_cache)))
      <= List.length (_data sample_cache))%nat.
Proof.
  apply (@get_leaves_other_keys nat sample_cache 7 "a" "b").
  - exact sample_cache_wf.
  - discriminate.
Defined.

Lemma expired_entry_is_deleted_by_get_witness :
  fst (get 301 "a" sample_cache) = None
  /\ (forall later : Q,
        get later "a" (snd (get 301 "a" sample_cache))
        = (None, snd (get 301 "a" sample_cache)))
  /\ S (List.length (_data (snd (get 301 "a" sample_cache))))
     = List.length (_data sample_cache).
Proof.
  apply (@expired_entry_is_deleted_by_get nat sample_cache 301 "a" (sample_entry 1 0)).
  - exact sample_cache_wf.
  - reflexivity.
  - reflexivity.
Defined.

Lemma put_without_ttl_uses_default_witness :
  exists c1,
    put 10 10 "c" 3%nat None sample_cache = (Return tt, c1)
    /\ fst (get 310 "c" c1) = Some 3%nat.
Proof.
  destruct (@put_without_ttl_uses_default nat sample_cache 10 10 310 "c" 3%nat None
              sample_cache_wf)
    as (c1 & Hput & Hfresh & _); [reflexivity | now left |].
  exists c1. split; [exact Hput|]. apply Hfresh. discriminate.
Defined.

Lemma key_just_read_survives_put_witness :
  exists c2,
    put 10 10 "c" 3%nat None (snd (get 7 "a" sample_cache)) = (Return tt, c2)
    /\ od_lookup "a" (_data c2) = Some (sample_entry 1 0).
Proof.
  apply (@key_just_read_survives_put nat sample_cache 7 10 10 "a" "c"
           1%nat 3%nat None (sample_entry 1 0)).
  - exact sample_cache_wf.
  - reflexivity.
  - reflexivity.
  - reflexivity.
  - discriminate.
  - discriminate.
Defined.

(** ** More on retries and the fetcher *)

Lemma warning_delays_app (l l' : list (level * message)) :
  warning_delays (l ++ l') = warning_delays l ++ warning_delays l'.
Proof.
  induction l as [|[lv msg] l IH]; [reflexivity|].
  cbn [app warning_delays].
  destruct lv; try assumption.
  destruct msg; try assumption.
  cbn. now rewrite IH.
Qed.

Section MoreHttpFacts.

Variable Soup : Type.
Variable env : Env Soup.
Implicit Types (s : HttpClient Soup) (url : string).

(** What a request leaves alone. *)
Lemma make_request_frame url (timeout : Z) s :
  cache (snd (_make_request env url timeout s)) = cache s
  /\ retry_config (snd (_make_request env url timeout s)) = retry_config s
  /\ slept (snd (_make_request env url timeout s)) = slept s
  /\ net_calls (snd (_make_request env url timeout s)) = S (net_calls s)
  /\ warning_delays (log (snd (_make_request env url timeout s)))
     = warning_delays (log s).
Proof.
  unfold _make_request.
  destruct (session_get env (net_calls s) url timeout) as [[status soup| | |] latency];
    cbn; try (repeat split; reflexivity).
  destruct ((400 <=? status) && (status <? 600))%Z.
  - destruct (_ || _); repeat split; reflexivity.
  - cbn. repeat split; try reflexivity.
    rewrite warning_delays_app. cbn. now rewrite app_nil_r.
Qed.

(** The effects of the retry loop around a request: the cache and the
    configuration are left alone, at most [remaining] requests are sent,
    fewer sleeps than that are taken, and each sleep is announced by a
    warning with its delay; a warning without a sleep is the one of a
    negative delay, for which [time.sleep] raises. *)
Lemma retry_loop_effects (config : RetryConfig) url (timeout : Z)
    (remaining : nat) : forall (attempt : nat) (last : option exn) s,
  (attempt + remaining = Z.to_nat (max_attempts config))%nat ->
  let r := retry_loop env config (_make_request env url timeout)
             remaining attempt last s in
  cache (snd r) = cache s
  /\ retry_config (snd r) = retry_config s
  /\ (net_calls s <= net_calls (snd r) <= net_calls s + remaining)%nat
  /\ exists delays unslept,
       slept (snd r) = slept s ++ delays
       /\ warning_delays (log (snd r)) = warning_delays (log s) ++ delays ++ unslept
       /\ (List.length delays <= pred remaining)%nat
       /\ Forall (fun d => 0 <= d) delays
       /\ (jitter config = true -> unslept = []).
Proof.
  induction remaining as [|remaining IH]; intros attempt last s Hinv; cbn zeta.
  - cbn [retry_loop]. assert (Hs : snd (match last with
                                          | Some e => (@Raise Soup e, s)
                                          | None => (Raise TypeError, s)
                                          end) = s) by (destruct last; reflexivity).
    rewrite Hs. repeat split; try lia.
    exists [], []. rewrite !app_nil_r. repeat split; auto.
  - cbn [retry_loop].
    destruct (make_request_frame url timeout s) as (Hc & Hr & Hsl & Hn & Hw).
    destruct (_make_request env url timeout s) as [[result|e] s1]; cbn [snd] in *.
    + destruct (0 <? attempt)%nat; cbn;
        rewrite ?warning_delays_app; cbn [warning_delays];
        rewrite ?app_nil_r, ?Hc, ?Hr, ?Hsl, ?Hn, ?Hw;
        (repeat split; try lia);
        exists [], []; cbn [app List.length]; rewrite !app_nil_r;
        repeat split; auto; lia.
    + destruct (retryable_exceptions config e).
      2:{ cbn. rewrite ?warning_delays_app. cbn [warning_delays].
          rewrite ?app_nil_r, ?Hc, ?Hr, ?Hsl, ?Hn, ?Hw.
          repeat split; try lia.
          exists [], []. cbn [app List.length]. rewrite !app_nil_r.
          repeat split; auto; lia. }
      destruct (Z.eqb_spec (Z.of_nat attempt) (max_attempts config - 1)) as [|Hmore].
      { cbn. rewrite ?Hc, ?Hr, ?Hsl, ?Hn, ?Hw.
        repeat split; try lia.
        exists [], []. cbn [app List.length]. rewrite !app_nil_r.
        repeat split; auto; lia. }
      unfold draw_delay, time_sleep.
      assert (Hstep : forall (delay : Q) s2,
                cache s2 = cache s1 -> retry_config s2 = retry_config s1 ->
                slept s2 = slept s1 -> net_calls s2 = net_calls s1 ->
                warning_delays (log s2) = warning_delays (log s1) ->
                (jitter config = true -> 0 <= delay) ->
                let r := match (if Qle_bool 0 delay
                                then (Return tt,
                                      {| metrics := metrics (emit WARNING (MsgAttemptFailed (attempt + 1) delay e) s2);
                                         cache := cache (emit WARNING (MsgAttemptFailed (attempt + 1) delay e) s2);
                                         retry_config := retry_config (emit WARNING (MsgAttemptFailed (attempt + 1) delay e) s2);
                                         clock := clock (emit WARNING (MsgAttemptFailed (attempt + 1) delay e) s2) + delay;
                                         net_calls := net_calls (emit WARNING (MsgAttemptFailed (attempt + 1) delay e) s2);
                                         rng_calls := rng_calls (emit WARNING (MsgAttemptFailed (attempt + 1) delay e) s2);
                                         log := log (emit WARNING (MsgAttemptFailed (attempt + 1) delay e) s2);
                                         slept := slept (emit WARNING (MsgAttemptFailed (attempt + 1) delay e) s2) ++ [delay] |})
                                else (Raise OtherException,
                                      emit WARNING (MsgAttemptFailed (attempt + 1) delay e) s2))
                         with
                         | (Return _, s4) =>
                             retry_loop env config (_make_request env url timeout)
                               remaining (S attempt) (Some e) s4
                         | (Raise e', s4) => (Raise e', s4)
                         end in
                cache (snd r) = cache s
                /\ retry_config (snd r) = retry_config s
                /\ (net_calls s <= net_calls (snd r) <= net_calls s + S remaining)%nat
                /\ exists delays unslept,
                     slept (snd r) = slept s ++ delays
                     /\ warning_delays (log (snd r))
                        = warning_delays (log s) ++ delays ++ unslept
                     /\ (List.length delays <= remaining)%nat
                     /\ Forall (fun d => 0 <= d) delays
                     /\ (jitter config = true -> unslept = [])).
      { intros delay s2 H1 H2 H3 H4 H5 Hj. cbv zeta.
        destruct (Qle_bool 0 delay) eqn:Hb.
        - apply Qle_bool_iff in Hb as Hpos.
          cbn [emit metrics cache retry_config clock net_calls rng_calls log slept].
          match goal with
          | |- context [retry_loop env config _ remaining (S attempt) (Some e) ?s4] =>
              destruct (IH (S attempt) (Some e) s4 ltac:(lia))
                as (Hc' & Hr' & Hn' & ds & us & Hs' & Hw' & Hl' & Hf' & Hu');
              remember (snd (retry_loop env config (_make_request env url timeout)
                               remaining (S attempt) (Some e) s4)) as r4 eqn:Hr4;
              clear Hr4
          end.
          cbn [metrics cache retry_config clock net_calls rng_calls log slept]
            in Hc', Hr', Hn', Hs', Hw'.
          rewrite warning_delays_app in Hw'. cbn [warning_delays] in Hw'.
          rewrite Hc', Hr', H1, H2, Hc, Hr. repeat split; try lia.
          exists (delay :: ds), us. rewrite Hs', Hw', H3, H5, Hsl, Hw.
          rewrite <- !app_assoc. cbn [app List.length].
          repeat split; auto.
          destruct remaining; cbn in Hl' |- *; lia.
        - cbn. rewrite warning_delays_app. cbn [warning_delays].
          rewrite H1, H2, H3, H4, H5, Hc, Hr, Hsl, Hn, Hw.
          repeat split; try lia.
          exists [], [delay]. cbn [app List.length]. rewrite app_nil_r.
          repeat split; auto; try lia.
          intros H. specialize (Hj H). apply Qle_bool_iff in Hj. congruence. }
      cbv zeta.
      destruct (_calculate_delay config _ attempt) as [delay|e'] eqn:Hdelay.
      * destruct (jitter config) eqn:Hj; cbn [fst snd pred].
        -- apply Hstep; try reflexivity.
           intros _. exact (jittered_delay_nonneg _ _ _ Hj Hdelay).
        -- apply Hstep; try reflexivity. intros H; discriminate H.
      * cbn. rewrite ?Hc, ?Hr, ?Hsl, ?Hn, ?Hw.
        repeat split; try lia.
        exists [], []. cbn [app List.length]. rewrite !app_nil_r.
        repeat split; auto; lia.
Qed.

Lemma retried_within_refl s : retried_within s s.
Proof.
  unfold retried_within. repeat split; try lia.
  exists [], []. rewrite !app_nil_r. cbn [List.length]. repeat split; auto. lia.
Qed.

(** Steps that touch neither the configuration, the request counter, the
    sleeps nor the warnings do not matter. *)
Lemma retried_within_ext s s1 s2 :
  retried_within s s1 ->
  retry_config s2 = retry_config s1 -> net_calls s2 = net_calls s1 ->
  slept s2 = slept s1 -> warning_delays (log s2) = warning_delays (log s1) ->
  retried_within s s2.
Proof.
  unfold retried_within. intros (Hr & Hn & ds & us & Hs & Hw & Hrest) H1 H2 H3 H4.
  rewrite H1, H2, H3, H4. repeat split; try tauto; try lia.
  exists ds, us. tauto.
Qed.

Lemma retried_within_start s0 s s' :
  retry_config s0 = retry_config s -> net_calls s0 = net_calls s ->
  slept s0 = slept s -> warning_delays (log s0) = warning_delays (log s) ->
  retried_within s0 s' -> retried_within s s'.
Proof.
  unfold retried_within. intros H1 H2 H3 H4. now rewrite H1, H2, H3, H4.
Qed.

Lemma execute_with_retry_effects url (timeout : Z) s :
  cache (snd (execute_with_retry env (retry_config s) (_make_request env url timeout) s))
    = cache s
  /\ retried_within s
       (snd (execute_with_retry env (retry_config s) (_make_request env url timeout) s)).
Proof.
  unfold execute_with_retry, retried_within.
  destruct (retry_loop_effects (retry_config s) url timeout
              (Z.to_nat (max_attempts (retry_config s))) 0 None s eq_refl)
    as (Hc & Hr & Hn & Hrest).
  auto.
Qed.

Lemma fetch_and_store_effects url (timeout : Z) (use_cache : bool) (start_time : Q) s :
  retried_within s (snd (fetch_and_store env url timeout use_cache start_time s))
  /\ (use_cache = false ->
      cache (snd (fetch_and_store env url timeout use_cache start_time s)) = cache s).
Proof.
  unfold fetch_and_store.
  destruct (execute_with_retry_effects url timeout s) as [Hc Hw].
  destruct (execute_with_retry env (retry_config s) (_make_request env url timeout) s)
    as [[soup|e] s1]; cbn [snd] in *; [|now split].
  destruct (cache s1) as [c|] eqn:Hcache.
  - destruct use_cache.
    + destruct (put (clock s1) (clock s1) (_get_cache_key env url) soup None c)
        as [[[]|e] c']; cbn [snd]; (split; [|discriminate]);
        eapply retried_within_ext; try exact Hw; reflexivity.
    + cbn [snd]. split; [|intros _; cbn; congruence].
      eapply retried_within_ext; try exact Hw; reflexivity.
  - cbn [snd]. split; [|intros _; cbn; congruence].
    eapply retried_within_ext; try exact Hw; reflexivity.
Qed.

Lemma get_page_effects url (timeout : Z) (use_cache : bool) s :
  retried_within s (snd (get_page env url timeout use_cache s))
  /\ (use_cache = false -> cache (snd (get_page env url timeout use_cache s)) = cache s).
Proof.
  assert (Hmiss : forall s0,
            retry_config s0 = retry_config s -> net_calls s0 = net_calls s ->
            slept s0 = slept s -> warning_delays (log s0) = warning_delays (log s) ->
            (use_cache = false -> cache s0 = cache s) ->
            let r := fetch_and_store env url timeout use_cache (clock s) s0 in
            retried_within s
              (snd match r with
                   | (Return page, s1) => (Return page, s1)
                   | (Raise e, s1) =>
                       (Return None,
                        set_metrics
                          (add_request (metrics (emit ERROR (MsgFetchError url e) s1))
                             false (clock (emit ERROR (MsgFetchError url e) s1) - clock s) false)
                          (emit ERROR (MsgFetchError url e) s1))
                   end)
            /\ (use_cache = false ->
                cache (snd match r with
                           | (Return page, s1) => (Return page, s1)
                           | (Raise e, s1) =>
                               (Return None,
                                set_metrics
                                  (add_request (metrics (emit ERROR (MsgFetchError url e) s1))
                                     false (clock (emit ERROR (MsgFetchError url e) s1) - clock s) false)
                                  (emit ERROR (MsgFetchError url e) s1))
                           end) = cache s)).
  { intros s0 H1 H2 H3 H4 H5. cbv zeta.
    destruct (fetch_and_store_effects url timeout use_cache (clock s) s0) as [Hw Hc].
    destruct (fetch_and_store env url timeout use_cache (clock s) s0) as [[page|e] s1];
      cbn [snd] in *.
    - split; [now apply (@retried_within_start s0 s s1 H1 H2 H3 H4)|].
      intros Hu. rewrite (Hc Hu). auto.
    - split.
      + apply (@retried_within_start s0 s _ H1 H2 H3 H4).
        eapply retried_within_ext; try exact Hw; try reflexivity.
        cbn. rewrite warning_delays_app. cbn. now rewrite app_nil_r.
      + intros Hu. cbn. rewrite (Hc Hu). auto. }
  unfold get_page, get_page_body.
  destruct (cache s) as [c|] eqn:Hcache.
  - destruct use_cache.
    + destruct (get (clock s) (_get_cache_key env url) c) as [[soup|] c'].
      * cbn [snd]. split; [|discriminate].
        eapply retried_within_ext; [apply retried_within_refl|..]; try reflexivity.
        cbn. rewrite warning_delays_app. cbn. now rewrite app_nil_r.
      * apply Hmiss; try reflexivity. discriminate.
    + apply Hmiss; try reflexivity; auto.
  - apply Hmiss; try reflexivity; auto.
Qed.

(** X6.  One call of [get_page] sends at most [max_attempts] requests and
    sleeps fewer times than that, never for a negative time. *)
Theorem get_page_bounded_effort url (timeout : Z) (use_cache : bool) s :
  (net_calls s <= net_calls (snd (get_page env url timeout use_cache s))
   <= net_calls s + Z.to_nat (max_attempts (retry_config s)))%nat
  /\ exists delays,
       slept (snd (get_page env url timeout use_cache s)) = slept s ++ delays
       /\ (List.length delays <= pred (Z.to_nat (max_attempts (retry_config s))))%nat
       /\ Forall (fun d => 0 <= d) delays.
Proof.
  destruct (get_page_effects url timeout use_cache s)
    as [(_ & Hn & ds & us & Hs & _ & Hl & Hf & _) _].
  split; [exact Hn|]. now exists ds.
Qed.

(** X7.  With jitter enabled, the delays of the retry warnings that one
    call of [get_page] logs are exactly the times it sleeps, in order:
    every retry is announced with its delay and then taken. *)
Theorem get_page_warnings_match_sleeps url (timeout : Z) (use_cache : bool) s :
  jitter (retry_config s) = true ->
  exists delays,
    slept (snd (get_page env url timeout use_cache s)) = slept s ++ delays
    /\ warning_delays (log (snd (get_page env url timeout use_cache s)))
       = warning_delays (log s) ++ delays.
Proof.
  intros Hj.
  destruct (get_page_effects url timeout use_cache s)
    as [(_ & _ & ds & us & Hs & Hw & _ & _ & Hu) _].
  exists ds. rewrite (Hu Hj), app_nil_r in Hw. now split.
Qed.

(** X8.  A call with [use_cache=False] leaves the cache exactly as it was:
    nothing is looked up, refreshed, expired or stored. *)
Theorem get_page_without_cache url (timeout : Z) s :
  cache (snd (get_page env url timeout false s)) = cache s.
Proof. now apply get_page_effects. Qed.

End MoreHttpFacts.

Section CacheAndFetch.

Variable Soup : Type.
Variable env : Env Soup.
Implicit Types (s : HttpClient Soup) (url : string).



(** X10.  A fetch that fails stores nothing: after a [get_page] that
    returned [None], every entry of the cache was there before with the
    same content. *)
Theorem failed_fetch_stores_nothing url (timeout : Z) (use_cache : bool) s s1
    (c c1 : MemoryCache Soup) (key : string) (entry : CacheEntry Soup) :
  cache s = Some c ->
  od_wf (_data c) ->
  get_page env url timeout use_cache s = (Return None, s1) ->
  cache s1 = Some c1 ->
  od_lookup key (_data c1) = Some entry ->
  od_lookup key (_data c) = Some entry.
Proof.
  intros Hcache Hwf Hfail Hcache1 Hentry.
  assert (Hmiss : forall s0 c0,
            cache s0 = Some c0 ->
            (forall k e, od_lookup k (_data c0) = Some e -> od_lookup k (_data c) = Some e) ->
            match fetch_and_store env url timeout use_cache (clock s) s0 with
            | (Return page, s2) => page <> None
            | (Raise _, s2) =>
                exists c2, cache s2 = Some c2
                  /\ forall k e, od_lookup k (_data c2) = Some e ->
                                 od_lookup k (_data c) = Some e
            end).
  { intros s0 c0 Hc0 Hsub. unfold fetch_and_store.
    pose proof (execute_with_retry_effects env url timeout s0) as [Hkeep _].
    destruct (execute_with_retry env (retry_config s0) (_make_request env url timeout) s0)
      as [[fetched|e] sx]; cbn [snd] in Hkeep.
    - rewrite Hkeep, Hc0. destruct use_cache; [|discriminate].
      unfold put. destruct (evict (max_size c0) _) as [kept|e]; cbn; [discriminate|].
      eexists. split; [reflexivity|]. intros k e0 H. discriminate H.
    - exists c0. rewrite Hkeep. auto. }
  unfold get_page, get_page_body in Hfail. rewrite Hcache in Hfail.
  assert (Hfinish : forall s0 c0,
            cache s0 = Some c0 ->
            (forall k e, od_lookup k (_data c0) = Some e -> od_lookup k (_data c) = Some e) ->
            match fetch_and_store env url timeout use_cache (clock s) s0 with
            | (Return page, s2) => (Return page, s2)
            | (Raise e, s2) =>
                (Return None,
                 set_metrics
                   (add_request (metrics (emit ERROR (MsgFetchError url e) s2)) false
                      (clock (emit ERROR (MsgFetchError url e) s2) - clock s) false)
                   (emit ERROR (MsgFetchError url e) s2))
            end = (Return None, s1) ->
            od_lookup key (_data c) = Some entry).
  { intros s0 c0 Hc0 Hsub H. specialize (Hmiss s0 c0 Hc0 Hsub).
    destruct (fetch_and_store env url timeout use_cache (clock s) s0) as [[page|e] s2].
    - injection H as -> _. contradiction.
    - injection H as <-. destruct Hmiss as (c2 & Hc2 & Hsub2).
      cbn in Hcache1. rewrite Hc2 in Hcache1. injection Hcache1 as <-.
      now apply Hsub2. }
  destruct use_cache.
  - destruct (get (clock s) (_get_cache_key env url) c) as [[soup|] c'] eqn:Hget;
      [discriminate Hfail|].
    apply (Hfinish (set_cache (Some c') s) c'); [reflexivity| |exact Hfail].
    intros k e Hk. unfold get in Hget.
    destruct (od_lookup (_get_cache_key env url) (_data c)) as [e0|] eqn:Hkey.
    + destruct (is_expired (clock s) e0); [|discriminate].
      injection Hget as <-. cbn in Hk.
      destruct (String.eqb_spec k (_get_cache_key env url)) as [->|Hne].
      * rewrite (od_lookup_delete _ Hwf) in Hk. discriminate.
      * now rewrite od_lookup_delete_other in Hk.
    + now injection Hget as <-.
  - apply (Hfinish s c); auto.
Qed.

(** X11.  With no attempt allowed ([max_attempts] zero or negative) no
    request is ever sent, and a call that cannot be served from the cache
    fails at once: it returns [None] and records a failure. *)
Theorem get_page_without_attempts url (timeout : Z) (use_cache : bool) s :
  (max_attempts (retry_config s) <= 0)%Z ->
  net_calls (snd (get_page env url timeout use_cache s)) = net_calls s
  /\ slept (snd (get_page env url timeout use_cache s)) = slept s
  /\ (use_cache = false ->
      fst (get_page env url timeout use_cache s) = Return None
      /\ failed_requests (metrics (snd (get_page env url timeout use_cache s)))
         = (failed_requests (metrics s) + 1)%N).
Proof.
  intros Hmax.
  assert (Hzero : Z.to_nat (max_attempts (retry_config s)) = 0%nat) by lia.
  destruct (get_page_effects env url timeout use_cache s)
    as [(_ & Hn & ds & us & Hs & _ & Hl & _) _].
  rewrite Hzero in Hn, Hl. split; [lia|]. split.
  - destruct ds; [now rewrite app_nil_r in Hs | cbn in Hl; lia].
  - intros ->. unfold get_page, get_page_body.
    assert (Hraise : fetch_and_store env url timeout false (clock s) s
                     = (Raise TypeError, s)).
    { unfold fetch_and_store, execute_with_retry. now rewrite Hzero. }
    destruct (cache s); rewrite Hraise; cbn; split; reflexivity.
Qed.

End CacheAndFetch.

(** One call of [get_page] is recorded once: as successful when it returned
    a page, as failed when it returned [None]; only a successful call can
    count as cached. *)
Lemma get_page_accounts (Soup : Type) (env : Env Soup) (url : string)
    (timeout : Z) (use_cache : bool) (s : HttpClient Soup) :
  exists (t : Q) (from_cache : bool),
    metrics (snd (get_page env url timeout use_cache s))
    = add_request (metrics s)
        match fst (get_page env url timeout use_cache s) with
        | Return (Some _) => true
        | _ => false
        end t from_cache
    /\ (from_cache = true ->
        exists page, fst (get_page env url timeout use_cache s) = Return (Some page)).
Proof.
  unfold get_page.
  pose proof (get_page_body_metrics env url timeout use_cache (clock s) s) as H.
  destruct (get_page_body env url timeout use_cache (clock s) s) as [[page|e] s1].
  - destruct H as [Hpage (t & fc & Hm)]. exists t, fc. cbn [fst snd].
    destruct page as [page|]; [|contradiction]. split; [exact Hm|].
    intros _. now exists page.
  - cbn [fst snd]. eexists _, false. cbn. rewrite H. split; [reflexivity | discriminate].
Qed.

(** X12.  After any sequence of [get_page] calls on a client, every call
    was counted once: [total_requests] grew by the number of calls,
    [successful_requests] by the number of calls that returned a page,
    [failed_requests] by the number of calls that returned [None];
    [cached_requests] grew by no more than the successful ones, and
    [retry_attempts] has not moved. *)
Theorem get_pages_metrics (Soup : Type) (env : Env Soup)
    (requests : list page_request) (s : HttpClient Soup) :
  (pages_returned env requests s <= List.length requests)%nat
  /\ total_requests (metrics (get_pages env requests s))
     = (total_requests (metrics s) + N.of_nat (List.length requests))%N
  /\ successful_requests (metrics (get_pages env requests s))
     = (successful_requests (metrics s) + N.of_nat (pages_returned env requests s))%N
  /\ failed_requests (metrics (get_pages env requests s))
     = (failed_requests (metrics s)
        + N.of_nat (List.length requests - pages_returned env requests s))%N
  /\ (cached_requests (metrics s)
      <= cached_requests (metrics (get_pages env requests s))
      <= cached_requests (metrics s) + N.of_nat (pages_returned env requests s))%N
  /\ retry_attempts (metrics (get_pages env requests s)) = retry_attempts (metrics s).
Proof.
  revert s. induction requests as [|r requests IH]; intros s.
  - cbn. repeat split; lia.
  - cbn [get_pages pages_returned List.length].
    destruct (get_page_accounts env (request_url r) (request_timeout r)
                (request_use_cache r) s) as (t & fc & Hm & Hfc).
    specialize (IH (snd (get_page env (request_url r) (request_timeout r)
                           (request_use_cache r) s))).
    destruct IH as (Hle & Ht & Hs & Hf & Hc & Hr).
    rewrite Ht, Hs, Hf, Hr, Hm. clear Ht Hs Hf Hr.
    rewrite Hm in Hc. clear Hm.
    destruct (fst (get_page env (request_url r) (request_timeout r)
                     (request_use_cache r) s)) as [[page|]|e];
      destruct fc; cbn [add_request total_requests successful_requests
                        failed_requests cached_requests retry_attempts] in *;
      try (destruct (Hfc eq_refl) as [page' Habs]; discriminate Habs);
      repeat split; lia.
Qed.

Section RetryOutcomes.

Variable Soup : Type.
Variable env : Env Soup.
Implicit Types (s : HttpClient Soup) (url : string).



(** X14.  A fatal response is never retried: when the first answer carries
    a status between 400 and 599 other than 429, 500, 502, 503 and 504,
    [get_page] sends that one request, does not sleep, and returns [None]. *)
Theorem fatal_status_is_not_retried url (timeout : Z) s (status : Z) (soup : Soup)
    (latency : Q) :
  (0 < max_attempts (retry_config s))%Z ->
  retryable_exceptions (retry_config s)
    (NonRetryableError (ReasonHttpStatus status url)) = false ->
  session_get env (net_calls s) url timeout = (HttpResponse status soup, latency) ->
  (400 <= status < 600)%Z ->
  ~ In status [429; 500; 502; 503; 504]%Z ->
  exists s',
    get_page env url timeout false s = (Return None, s')
    /\ net_calls s' = S (net_calls s)
    /\ slept s' = slept s
    /\ failed_requests (metrics s') = (failed_requests (metrics s) + 1)%N.
Proof.
  intros Hmax Hfatal Hnet Hrange Hnot.
  assert (Hreq : _make_request env url timeout s
                 = (Raise (NonRetryableError (ReasonHttpStatus status url)),
                    after_request latency s)).
  { unfold _make_request. rewrite Hnet.
    assert (H1 : ((400 <=? status) && (status <? 600))%Z = true).
    { apply andb_true_intro. split; [apply Z.leb_le | apply Z.ltb_lt]; lia. }
    rewrite H1.
    assert (H2 : existsb (Z.eqb status) [429; 500; 502; 503; 504]%Z = false).
    { destruct (existsb (Z.eqb status) [429; 500; 502; 503; 504]%Z) eqn:Hex; [|reflexivity].
      apply existsb_exists in Hex as (x & Hin & Heq). apply Z.eqb_eq in Heq. subst x.
      contradiction. }
    now rewrite H2. }
  assert (Hfetch : fetch_and_store env url timeout false (clock s) s
                   = (Raise (NonRetryableError ReasonWrapped),
                      emit ERROR (MsgNonRetryable
                                    (NonRetryableError (ReasonHttpStatus status url)))
                        (after_request latency s))).
  { unfold fetch_and_store, execute_with_retry.
    destruct (Z.to_nat (max_attempts (retry_config s))) as [|n] eqn:Hn; [lia|].
    cbn [retry_loop]. now rewrite Hreq, Hfatal. }
  unfold get_page, get_page_body.
  eexists. split.
  - destruct (cache s); rewrite Hfetch; reflexivity.
  - cbn. repeat split.
Qed.

Lemma transient_request_raises url (timeout : Z) s :
  transient (fst (session_get env (net_calls s) url timeout)) = true ->
  exists why latency,
    _make_request env url timeout s
    = (Raise (RetryableError why), after_request latency s).
Proof.
  unfold _make_request.
  destruct (session_get env (net_calls s) url timeout) as [[status soup| | |] latency];
    cbn [fst transient]; intros H; try discriminate H; try (eexists _, _; reflexivity).
  assert (Hrange : ((400 <=? status) && (status <? 600))%Z = true).
  { apply existsb_exists in H as (x & Hin & Heq). apply Z.eqb_eq in Heq. subst x.
    cbn in Hin. apply andb_true_intro.
    split; [apply Z.leb_le | apply Z.ltb_lt]; lia. }
  rewrite Hrange, H. eexists _, _; reflexivity.
Qed.

Lemma retry_loop_step (A : Type) (config : RetryConfig) (func : M Soup A)
    (remaining attempt : nat) (last : option exn) s :
  retry_loop env config func (S remaining) attempt last s
  = match func s with
    | (Return result, s1) =>
        (Return result,
         if (0 <? attempt)%nat
         then emit INFO (MsgSucceededAfter (attempt + 1)) s1 else s1)
    | (Raise e, s1) =>
        if retryable_exceptions config e then
          if (Z.of_nat attempt =? max_attempts config - 1)%Z then (Raise e, s1)
          else
            match draw_delay env config attempt s1 with
            | (Return delay, s2) =>
                match time_sleep delay
                        (emit WARNING (MsgAttemptFailed (attempt + 1) delay e) s2) with
                | (Return _, s4) =>
                    retry_loop env config func remaining (S attempt) (Some e) s4
                | (Raise e', s4) => (Raise e', s4)
                end
            | (Raise e', s2) => (Raise e', s2)
            end
        else
          (Raise (NonRetryableError ReasonWrapped), emit ERROR (MsgNonRetryable e) s1)
    end.
Proof. reflexivity. Qed.



(** The other end of X15: when the power of the exponential backoff leaves
    the floats at attempt number [k], the retries stop there.  On the same
    kind of network [get_page] sends [k + 1] requests and returns [None],
    whatever is left of [max_attempts]. *)
Lemma retry_loop_overflow (config : RetryConfig) url (timeout : Z) (k : nat) :
  forall (remaining attempt : nat) (last : option exn) s,
  jitter config = true ->
  (forall why, retryable_exceptions config (RetryableError why) = true) ->
  (forall (n : nat) (draw : Q), (n < k)%nat ->
     exists d, _calculate_delay config draw n = Return d) ->
  (forall draw, _calculate_delay config draw k = Raise OverflowError) ->
  (forall n, transient (fst (session_get env n url timeout)) = true) ->
  (attempt + remaining = Z.to_nat (max_attempts config))%nat ->
  (attempt <= k)%nat ->
  (k + 2 <= attempt + remaining)%nat ->
  exists s',
    retry_loop env config (_make_request env url timeout) remaining attempt last s
    = (Raise OverflowError, s')
    /\ net_calls s' = (net_calls s + (k + 1 - attempt))%nat
    /\ List.length (slept s') = (List.length (slept s) + (k - attempt))%nat
    /\ metrics s' = metrics s.
Proof.
  induction remaining as [|remaining IH];
    intros attempt last s Hj Hretry Hdelays Hover Hnet Hinv Hle Hroom; [lia|].
  rewrite retry_loop_step.
  destruct (transient_request_raises url timeout s (Hnet (net_calls s)))
    as (why & latency & ->).
  rewrite Hretry.
  assert (Hmore : (Z.of_nat attempt =? max_attempts config - 1)%Z = false)
    by (apply Z.eqb_neq; lia).
  rewrite Hmore. unfold draw_delay, time_sleep. cbv zeta. rewrite Hj.
  destruct (Nat.eq_dec attempt k) as [->|Hne].
  - rewrite Hover. eexists. split; [reflexivity|].
    cbn. repeat split; lia.
  - destruct (Hdelays attempt (uniform env (rng_calls (after_request latency s)))
                ltac:(lia)) as [delay Hdelay].
    rewrite Hdelay. cbn [fst snd].
    pose proof (jittered_delay_nonneg _ _ _ Hj Hdelay) as Hpos.
    apply Qle_bool_iff in Hpos. rewrite Hpos.
    match goal with
    | |- context [retry_loop env config _ remaining (S attempt) ?l ?s4] =>
        destruct (IH (S attempt) l s4 Hj Hretry Hdelays Hover Hnet
                    ltac:(lia) ltac:(lia) ltac:(lia))
          as (s' & -> & Hn & Hs & Hm)
    end.
    exists s'. split; [reflexivity|].
    cbn in Hn, Hs, Hm. rewrite length_app in Hs. cbn in Hs.
    repeat split; try lia. exact Hm.
Qed.

End RetryOutcomes.

(** ** More on the traversals *)

Section MoreTraversalFacts.

Variables World Page Item : Type.
Variable L : Loop World Page Item.
Implicit Types (p : Parser World) (c : Cursor Item) (evs : list page_event).

(** The page budget bounds the iterations. *)
Lemma crawl_within_budget evs : forall fuel p c p' c',
  crawl L fuel p c = Some (p', c', evs) ->
  (Z.of_nat (List.length evs) <= Z.max 0 (Config.MAX_PAGES - page_count c))%Z.
Proof.
  induction evs as [|ev rest IH]; intros fuel p c p' c' H; [cbn [List.length]; lia|].
  apply crawl_inv in H as [(_ & Hnil & _)|H]; [discriminate|].
  destruct H as (fuel' & url & ev' & rest' & next & _ & _ & Hgo & Hevs & _ & Hstep & Hnext).
  injection Hevs as <- <-.
  unfold keep_going in Hgo. apply andb_prop in Hgo as [Hgo _].
  apply andb_prop in Hgo as [_ Hpages]. apply Z.ltb_lt in Hpages.
  destruct next as [[p2 c2]|].
  - apply IH in Hnext.
    assert (Hpc : page_count c2 = (page_count c + 1)%Z)
      by (inversion Hstep; subst; assumption).
    rewrite Hpc in Hnext. cbn [List.length]. lia.
  - subst rest. cbn [List.length]. lia.
Qed.

(** Each iteration fetches the URL the previous one chose. *)
Lemma crawl_follows_links pre : forall fuel p c p' c' ev ev2 post,
  crawl L fuel p c = Some (p', c', pre ++ ev :: ev2 :: post) ->
  match ev with
  | Advanced url _ next _ => next <> url /\ event_url ev2 = next
  | PageFailed _ _ _ next => next = Some (event_url ev2)
  | FetchFailed _ _ | Exhausted _ _ | CycleDetected _ _ => False
  end.
Proof.
  intros fuel p c p' c' ev ev2 post H.
  destruct (@trace_suffix _ _ _ L pre _ _ _ _ _ _ _ H) as (fuel2 & p2 & c2 & Hcrawl & _).
  apply crawl_inv in Hcrawl as [(_ & Hnil & _)|Hc]; [discriminate|].
  destruct Hc as (fuel' & url & ev' & rest & next & _ & _ & _ & Hevs & _ & Hstep & Hnext).
  injection Hevs as <- <-.
  assert (Hsecond : forall p3 c3, crawl L fuel' p3 c3 = Some (p', c', ev2 :: post) ->
            current_url c3 = Some (event_url ev2)).
  { intros p3 c3 H3.
    apply crawl_inv in H3 as [(_ & Hnil & _)|Hc]; [discriminate|].
    destruct Hc as (? & url2 & ? & ? & ? & _ & Hurl2 & _ & Hevs & Heq & _).
    injection Hevs as <- <-. now rewrite Heq. }
  inversion Hstep as [p3 c3 _ _ Hurl| e p3 c3| | | | n nxt p3 c3 Hne _ _ Hurl]; subst;
    try discriminate Hnext.
  - apply Hsecond in Hnext. rewrite Hurl in Hnext. discriminate.
  - now apply Hsecond in Hnext.
  - apply Hsecond in Hnext. rewrite Hurl in Hnext. injection Hnext as <-. auto.
Qed.

(** The first iteration fetches the current URL of the cursor. *)
Lemma crawl_starts_at_cursor fuel p c p' c' ev rest :
  crawl L fuel p c = Some (p', c', ev :: rest) ->
  current_url c = Some (event_url ev).
Proof.
  intros H. apply crawl_inv in H as [(_ & Hnil & _)|Hc]; [discriminate|].
  destruct Hc as (? & url2 & ? & ? & ? & _ & Hurl2 & _ & Hevs & Heq & _).
  injection Hevs as <- <-. now rewrite Heq.
Qed.

(** The books of the loop: failures, page numbers and collected records. *)
Lemma crawl_accounts fuel : forall p c p' c' evs,
  crawl L fuel p c = Some (p', c', evs) ->
  total_failures p' = (total_failures p + Z.of_nat (failures_in evs))%Z
  /\ is_interrupted p' = is_interrupted p
  /\ List.length (failed_pages c') = (List.length (failed_pages c) + failures_in evs)%nat
  /\ page_count c' = (page_count c + Z.of_nat (List.length evs))%Z
  /\ ((forall a b, List.length (merge L a b) = (List.length a + List.length b)%nat) ->
      List.length (collected c')
      = (List.length (collected c) + list_sum (map records_of evs))%nat).
Proof.
  induction fuel as [|fuel IH]; intros p c p' c' evs H; rewrite crawl_unfold in H;
    (destruct (keep_going p c);
     [|injection H as <- <- <-; cbn; repeat split; lia]);
    [discriminate H|].
  destruct (current_url c) as [url|]; [|discriminate H].
  cbv zeta in H.
  assert (Hnext : forall ev p2 c2,
            prepend ev (crawl L fuel p2 c2) = Some (p', c', evs) ->
            total_failures p2
              = (total_failures p + (if is_failure ev then 1 else 0))%Z ->
            is_interrupted p2 = is_interrupted p ->
            List.length (failed_pages c2)
              = (List.length (failed_pages c) + (if is_failure ev then 1 else 0))%nat ->
            page_count c2 = (page_count c + 1)%Z ->
            ((forall a b, List.length (merge L a b) = (List.length a + List.length b)%nat) ->
             List.length (collected c2) = (List.length (collected c) + records_of ev)%nat) ->
            total_failures p' = (total_failures p + Z.of_nat (failures_in evs))%Z
            /\ is_interrupted p' = is_interrupted p
            /\ List.length (failed_pages c')
               = (List.length (failed_pages c) + failures_in evs)%nat
            /\ page_count c' = (page_count c + Z.of_nat (List.length evs))%Z
            /\ ((forall a b, List.length (merge L a b) = (List.length a + List.length b)%nat) ->
                List.length (collected c')
                = (List.length (collected c) + list_sum (map records_of evs))%nat)).
  { intros ev p2 c2 Hp Ht Hi Hf Hpc Hcol.
    apply prepend_some in Hp as [rest [-> Hrest]].
    apply IH in Hrest as (Ht' & Hi' & Hf' & Hpc' & Hcol').
    unfold failures_in in *. cbn [filter map list_sum List.length].
    rewrite Ht', Hi', Hf', Hpc', Ht, Hi, Hf, Hpc.
    destruct (is_failure ev); cbn [List.length];
      (repeat split; try lia);
      intros Hm; rewrite (Hcol' Hm), (Hcol Hm); unfold list_sum; cbn [fold_right]; lia. }
  destruct (fetch L url (world p)) as [[page|] w1].
  - destruct (extract L page (world (set_world w1 p))) as [[items|e] w2].
    + destruct (resolve L page url _) as [next_url w3].
      assert (Hstop : forall ev,
                is_failure ev = false -> records_of ev = List.length items ->
                Some (set_world w3
                        match items with
                        | [] => set_world w2 (set_world w1 p)
                        | _ :: _ => reset_failures (set_world w2 (set_world w1 p))
                        end,
                      {| current_url := Some url; page_count := page_count c + 1;
                         failed_pages := failed_pages c;
                         collected := merge L (collected c) items |}, [ev])
                = Some (p', c', evs) ->
                total_failures p' = (total_failures p + Z.of_nat (failures_in evs))%Z
                /\ is_interrupted p' = is_interrupted p
                /\ List.length (failed_pages c')
                   = (List.length (failed_pages c) + failures_in evs)%nat
                /\ page_count c' = (page_count c + Z.of_nat (List.length evs))%Z
                /\ ((forall a b, List.length (merge L a b)
                                 = (List.length a + List.length b)%nat) ->
                    List.length (collected c')
                    = (List.length (collected c) + list_sum (map records_of evs))%nat)).
      { intros ev Hnf Hrec Heq. injection Heq as <- <- <-.
        unfold failures_in. cbn [filter map list_sum]. rewrite Hnf, Hrec.
        destruct items; cbn; (repeat split; try lia); intros Hm; rewrite Hm; cbn; lia. }
      destruct (truthy_url next_url).
      * destruct next_url as [next|]; [|refine (Hstop _ _ _ H); reflexivity].
        destruct (String.eqb next url); [refine (Hstop _ _ _ H); reflexivity|].
        eapply Hnext; [exact H|..]; cbn [is_failure records_of];
          try (destruct items; cbn; lia); try (destruct items; reflexivity).
        cbn. intros Hm. now rewrite Hm.
      * refine (Hstop _ _ _ H); reflexivity.
    + cbn [_handle_page_failure] in H.
      destruct (_should_continue_after_error _).
      * destruct (_try_next_page_url L (Some page) url _) as [next_url w3].
        eapply Hnext; [exact H|..]; cbn; try lia; try reflexivity;
          try (rewrite length_app; cbn; lia); try (intros _; lia).
      * injection H as <- <- <-. unfold failures_in. cbn.
        rewrite length_app. cbn. repeat split; lia.
  - cbn [_handle_page_failure _try_next_page_url] in H.
    eapply Hnext; [exact H|..]; cbn; try lia; try reflexivity;
      try (rewrite length_app; cbn; lia); try (intros _; lia).
Qed.

End MoreTraversalFacts.

(** A traversal is the loop run from the start state. *)
Lemma parse_forum_runs (World Page : Type) (F : ForumDeps World Page)
    (forum_url : string) (p : Parser World) :
  parse_forum F forum_url p = Some (Raise InvalidUrlError, p, [])
  \/ exists c' p' evs,
       crawl (forum_loop F) (Z.to_nat Config.MAX_PAGES) p
         (start (string * string) forum_url) = Some (p', c', evs)
       /\ parse_forum F forum_url p = Some (Return (finish (forum_loop F) c'), p', evs).
Proof.
  unfold parse_forum. destruct (_validate_forum_url forum_url); [|now left].
  right. destruct (traverse_returns (forum_loop F) forum_url p)
    as (items & p' & c' & evs & Hcrawl & Htraverse).
  exists c', p', evs. split; [assumption|].
  unfold traverse in *. now rewrite Hcrawl.
Qed.

Lemma parse_topic_runs (World Page PostData Post : Type)
    (T : TopicDeps World Page PostData Post) (topic_url : string) (p : Parser World) :
  exists c' p' evs,
    crawl (topic_loop T) (Z.to_nat Config.MAX_PAGES) p (start Post topic_url)
    = Some (p', c', evs)
    /\ parse_topic T topic_url p = Some (finish (topic_loop T) c', p', evs).
Proof.
  destruct (traverse_returns (topic_loop T) topic_url p)
    as (items & p' & c' & evs & Hcrawl & Htraverse).
  exists c', p', evs. split; [assumption|].
  unfold parse_topic, traverse. now rewrite Hcrawl.
Qed.

Lemma parse_topic_streaming_runs (World Page PostData : Type)
    (D : StreamDeps World Page PostData) (topic_url : string) (p : Parser World) :
  exists c' p' evs,
    crawl (stream_loop D) (Z.to_nat Config.MAX_PAGES) p (start PostData topic_url)
    = Some (p', c', evs)
    /\ parse_topic_streaming D topic_url p
       = Some (Z.of_nat (List.length (collected c')), p', evs).
Proof.
  destruct (traverse_returns (stream_loop D) topic_url p)
    as (items & p' & c' & evs & Hcrawl & _).
  exists c', p', evs. split; [assumption|].
  unfold parse_topic_streaming. now rewrite Hcrawl.
Qed.

(** X16.  No traversal performs more than [MAX_PAGES] iterations, that is,
    fetches: the listing traversal, the topic traversal and the streaming
    topic traversal all return within the page budget. *)
Theorem traversals_within_page_budget (World Page PostData Post : Type)
    (F : ForumDeps World Page) (T : TopicDeps World Page PostData Post)
    (D : StreamDeps World Page PostData) (url : string) (p : Parser World) :
  (exists r p' evs,
     parse_forum F url p = Some (r, p', evs)
     /\ (Z.of_nat (List.length evs) <= Config.MAX_PAGES)%Z)
  /\ (exists posts p' evs,
        parse_topic T url p = Some (posts, p', evs)
        /\ (Z.of_nat (List.length evs) <= Config.MAX_PAGES)%Z)
  /\ (exists n p' evs,
        parse_topic_streaming D url p = Some (n, p', evs)
        /\ (Z.of_nat (List.length evs) <= Config.MAX_PAGES)%Z).
Proof.
  repeat split.
  - destruct (parse_forum_runs F url p) as [H|(c' & p' & evs & Hcrawl & H)].
    + eexists _, _, _. split; [exact H|]. cbn. unfold Config.MAX_PAGES. lia.
    + eexists _, _, _. split; [exact H|].
      apply crawl_within_budget in Hcrawl. cbn [start page_count] in Hcrawl.
      unfold Config.MAX_PAGES in *. lia.
  - destruct (parse_topic_runs T url p) as (c' & p' & evs & Hcrawl & H).
    eexists _, _, _. split; [exact H|].
    apply crawl_within_budget in Hcrawl. cbn [start page_count] in Hcrawl.
    unfold Config.MAX_PAGES in *. lia.
  - destruct (parse_topic_streaming_runs D url p) as (c' & p' & evs & Hcrawl & H).
    eexists _, _, _. split; [exact H|].
    apply crawl_within_budget in Hcrawl. cbn [start page_count] in Hcrawl.
    unfold Config.MAX_PAGES in *. lia.
Qed.

(** X17.  An interrupted parser fetches nothing: each traversal returns at
    once, with no iteration, an empty result and the parser unchanged. *)
Theorem interrupted_parser_fetches_nothing (World Page PostData Post : Type)
    (F : ForumDeps World Page) (T : TopicDeps World Page PostData Post)
    (D : StreamDeps World Page PostData) (url : string) (p : Parser World) :
  is_interrupted p = true ->
  (parse_forum F url p = Some (Return [], p, [])
   \/ parse_forum F url p = Some (Raise InvalidUrlError, p, []))
  /\ parse_topic T url p = Some ([], p, [])
  /\ parse_topic_streaming D url p = Some (0%Z, p, []).
Proof.
  intros Hint.
  assert (Hstop : forall (Item : Type) (c : Cursor Item), keep_going p c = false).
  { intros Item c. unfold keep_going. rewrite Hint. apply andb_false_r. }
  repeat split.
  - unfold parse_forum. destruct (_validate_forum_url url); [left | now right].
    unfold traverse. now rewrite (crawl_stopped _ _ p _ (Hstop _ _)).
  - unfold parse_topic, traverse. now rewrite (crawl_stopped _ _ p _ (Hstop _ _)).
  - unfold parse_topic_streaming. now rewrite (crawl_stopped _ _ p _ (Hstop _ _)).
Qed.

Lemma interrupted_parser_fetches_nothing_witness :
  (parse_forum broken_forum first_url interrupted_parser
     = Some (Return [], interrupted_parser, [])
   \/ parse_forum broken_forum first_url interrupted_parser
      = Some (Raise InvalidUrlError, interrupted_parser, []))
  /\ parse_topic broken_topic first_url interrupted_parser
     = Some ([], interrupted_parser, [])
  /\ parse_topic_streaming broken_stream first_url interrupted_parser
     = Some (0%Z, interrupted_parser, []).
Proof.
  apply (interrupted_parser_fetches_nothing broken_forum broken_topic broken_stream
           first_url interrupted_parser).
  reflexivity.
Defined.

(** X18.  The books of a traversal: [total_failures] grows by exactly the
    number of failed iterations, and the interruption flag is left as it
    was, for each of the three traversals. *)
Theorem traversals_count_their_failures (World Page PostData Post : Type)
    (F : ForumDeps World Page) (T : TopicDeps World Page PostData Post)
    (D : StreamDeps World Page PostData) (url : string) (p : Parser World) :
  (exists r p' evs,
     parse_forum F url p = Some (r, p', evs)
     /\ total_failures p' = (total_failures p + Z.of_nat (failures_in evs))%Z
     /\ is_interrupted p' = is_interrupted p)
  /\ (exists posts p' evs,
        parse_topic T url p = Some (posts, p', evs)
        /\ total_failures p' = (total_failures p + Z.of_nat (failures_in evs))%Z
        /\ is_interrupted p' = is_interrupted p)
  /\ (exists n p' evs,
        parse_topic_streaming D url p = Some (n, p', evs)
        /\ total_failures p' = (total_failures p + Z.of_nat (failures_in evs))%Z
        /\ is_interrupted p' = is_interrupted p).
Proof.
  repeat split.
  - destruct (parse_forum_runs F url p) as [H|(c' & p' & evs & Hcrawl & H)].
    + eexists _, _, _. split; [exact H|]. cbn. split; [lia | reflexivity].
    + eexists _, _, _. split; [exact H|].
      apply crawl_accounts in Hcrawl. tauto.
  - destruct (parse_topic_runs T url p) as (c' & p' & evs & Hcrawl & H).
    eexists _, _, _. split; [exact H|]. apply crawl_accounts in Hcrawl. tauto.
  - destruct (parse_topic_streaming_runs D url p) as (c' & p' & evs & Hcrawl & H).
    eexists _, _, _. split; [exact H|]. apply crawl_accounts in Hcrawl. tauto.
Qed.

Lemma crawl_follows (World Page Item : Type) (L : Loop World Page Item)
    (url : string) (p p' : Parser World) (c' : Cursor Item) (evs : list page_event) :
  crawl L (Z.to_nat Config.MAX_PAGES) p (start Item url) = Some (p', c', evs) ->
  follows_links url evs.
Proof.
  intros H. split.
  - intros ev rest ->. apply crawl_starts_at_cursor in H. cbn in H. congruence.
  - intros pre ev ev2 post ->. eapply crawl_follows_links. exact H.
Qed.

(** X19.  The traversals follow the links: the first fetch is the entry
    URL, every later fetch is the URL the previous iteration chose (which
    differs from its own on the normal path), and nothing is fetched after
    a failed fetch, the end of the pagination or a detected cycle. *)
Theorem traversals_follow_links (World Page PostData Post : Type)
    (F : ForumDeps World Page) (T : TopicDeps World Page PostData Post)
    (D : StreamDeps World Page PostData) (url : string) (p : Parser World) :
  (exists r p' evs, parse_forum F url p = Some (r, p', evs) /\ follows_links url evs)
  /\ (exists posts p' evs,
        parse_topic T url p = Some (posts, p', evs) /\ follows_links url evs)
  /\ (exists n p' evs,
        parse_topic_streaming D url p = Some (n, p', evs) /\ follows_links url evs).
Proof.
  repeat split.
  - destruct (parse_forum_runs F url p) as [H|(c' & p' & evs & Hcrawl & H)].
    + eexists _, _, _. split; [exact H|]. split.
      * intros ev rest Heq. discriminate Heq.
      * intros pre ev ev2 post Heq. destruct pre; discriminate Heq.
    + eexists _, _, _. split; [exact H|]. eapply crawl_follows; eassumption.
  - destruct (parse_topic_runs T url p) as (c' & p' & evs & Hcrawl & H).
    eexists _, _, _. split; [exact H|]. eapply crawl_follows; eassumption.
  - destruct (parse_topic_streaming_runs D url p) as (c' & p' & evs & Hcrawl & H).
    eexists _, _, _. split; [exact H|]. eapply crawl_follows; eassumption.
Qed.

(** X20.  Nothing is lost and nothing is counted twice: the posts returned
    by [parse_topic] are as many as the records of its iterations, and the
    count returned by [parse_topic_streaming] is the number of posts its
    iterations wrote. *)
Theorem topic_results_add_up (World Page PostData Post : Type)
    (T : TopicDeps World Page PostData Post) (D : StreamDeps World Page PostData)
    (url : string) (p : Parser World) :
  (exists posts p' evs,
     parse_topic T url p = Some (posts, p', evs)
     /\ List.length posts = list_sum (map records_of evs))
  /\ (exists n p' evs,
        parse_topic_streaming D url p = Some (n, p', evs)
        /\ n = Z.of_nat (list_sum (map records_of evs))).
Proof.
  split.
  - destruct (parse_topic_runs T url p) as (c' & p' & evs & Hcrawl & H).
    eexists _, _, _. split; [exact H|].
    apply crawl_accounts in Hcrawl as (_ & _ & _ & _ & Hcol).
    specialize (Hcol (@length_app Post)). cbn [start collected List.length] in Hcol.
    unfold finish. cbn [merge topic_loop _retry_failed_pages].
    destruct (failed_pages c'); [exact Hcol|].
    destruct Config.ENABLE_ERROR_RECOVERY; [|exact Hcol].
    now rewrite app_nil_r.
  - destruct (parse_topic_streaming_runs D url p) as (c' & p' & evs & Hcrawl & H).
    eexists _, _, _. split; [exact H|].
    apply crawl_accounts in Hcrawl as (_ & _ & _ & _ & Hcol).
    specialize (Hcol (@length_app PostData)). cbn [start collected List.length] in Hcol.
    now rewrite Hcol.
Qed.

(** X21.  The streaming traversal has the circuit breaker and the final
    failed fetch of the other two: a failed iteration that brings
    [consecutive_failures] to the threshold is its last one, and so is an
    iteration whose fetch returned [None]. *)
Theorem streaming_traversal_stops_on_failures (World Page PostData : Type)
    (D : StreamDeps World Page PostData) (url : string) (p : Parser World) :
  exists n p' evs,
    parse_topic_streaming D url p = Some (n, p', evs)
    /\ breaker_respected (consecutive_failures p) evs
    /\ fetch_failure_is_final evs.
Proof.
  destruct (parse_topic_streaming_runs D url p) as (c' & p' & evs & Hcrawl & H).
  eexists _, _, _. split; [exact H|]. split.
  - eapply crawl_breaker; eassumption.
  - eapply crawl_fetch_failure_final; eassumption.
Qed.

Lemma streaming_traversal_stops_on_failures_witness :
  exists n p' evs,
    parse_topic_streaming broken_stream first_url (new_parser tt) = Some (n, p', evs)
    /\ List.length evs = 5%nat
    /\ (0 <= consecutive_failures (new_parser tt))%Z
    /\ (forall pre run post,
          evs = pre ++ run ++ post ->
          Forall (fun ev => is_failure ev = true) run ->
          (Config.MAX_CONSECUTIVE_FAILURES <= Z.of_nat (List.length run))%Z ->
          post = []).
Proof.
  destruct (streaming_traversal_stops_on_failures broken_stream first_url (new_parser tt))
    as (n & p' & evs & Hrun & Hbreaker & _).
  vm_compute in Hrun. injection Hrun as <- <- <-.
  eexists _, _, _. split; [vm_compute; reflexivity|].
  split; [reflexivity|].
  split; [cbn; lia|].
  apply (proj2 Hbreaker). cbn. lia.
Defined.

(** ** File names *)

Lemma firstn_incl (A : Type) (k : nat) (l : list A) (x : A) :
  In x (firstn k l) -> In x l.
Proof.
  intros H. rewrite <- (firstn_skipn k l). apply in_or_app. now left.
Qed.

Lemma slice_to_incl (A : Type) (n : Z) (l : list A) (x : A) :
  In x (slice_to n l) -> In x l.
Proof.
  unfold slice_to. destruct (0 <=? n)%Z; apply firstn_incl.
Qed.

Lemma slice_to_length (A : Type) (n : Z) (l : list A) :
  Z.of_nat (List.length (slice_to n l))
  = if (0 <=? n)%Z then Z.min (Z.of_nat (List.length l)) n
    else Z.max 0 (Z.of_nat (List.length l) + n).
Proof.
  unfold slice_to. destruct (Z.leb_spec 0 n); rewrite length_firstn; lia.
Qed.

Lemma replaced_char_is_safe (ch : N) : is_unsafe (if is_unsafe ch then 95%N else ch) = false.
Proof. destruct (is_unsafe ch) eqn:H; [reflexivity | exact H]. Qed.

(** X22.  A file name made by [create_safe_filename] contains none of the
    nine characters of the pattern, and its length is the length of the
    title cut at [max_length] (a negative [max_length] cuts that many
    characters off the end instead). *)
Theorem safe_filename_is_safe_and_short (title : text) (max_length : Z) :
  (forall ch, In ch (create_safe_filename title max_length) -> is_unsafe ch = false)
  /\ Z.of_nat (List.length (create_safe_filename title max_length))
     = if (0 <=? max_length)%Z
       then Z.min (Z.of_nat (List.length title)) max_length
       else Z.max 0 (Z.of_nat (List.length title) + max_length).
Proof.
  unfold create_safe_filename. split.
  - intros ch H. apply slice_to_incl in H. apply in_map_iff in H as (x & <- & _).
    apply replaced_char_is_safe.
  - now rewrite slice_to_length, length_map.
Qed.

(** X23.  With a non-negative [max_length], making a file name safe twice
    changes nothing more, and a title without characters of the pattern is
    only cut, not altered. *)
Theorem safe_filename_idempotent (title : text) (max_length : Z) :
  (0 <= max_length)%Z ->
  create_safe_filename (create_safe_filename title max_length) max_length
  = create_safe_filename title max_length
  /\ ((forall ch, In ch title -> is_unsafe ch = false) ->
      create_safe_filename title max_length = firstn (Z.to_nat max_length) title).
Proof.
  intros Hpos. unfold create_safe_filename, slice_to.
  apply Z.leb_le in Hpos as Hb. rewrite Hb. split.
  - rewrite <- firstn_map, map_map, firstn_firstn, Nat.min_id.
    f_equal. apply map_ext. intros ch.
    now rewrite replaced_char_is_safe.
  - intros Hsafe. f_equal. rewrite <- (map_id title) at 2.
    apply map_ext_in. intros ch Hin. now rewrite (Hsafe ch Hin).
Qed.

Lemma safe_filename_idempotent_witness :
  create_safe_filename (create_safe_filename sample_title 5) 5
  = create_safe_filename sample_title 5
  /\ create_safe_filename [97; 98; 99]%N 2 = firstn (Z.to_nat 2) [97; 98; 99]%N.
Proof.
  split.
  - apply (@safe_filename_idempotent sample_title 5%Z). lia.
  - apply (@safe_filename_idempotent [97; 98; 99]%N 2%Z); [lia|].
    intros ch [<-|[<-|[<-|[]]]]; reflexivity.
Defined.

(** ** More on retry delays *)

(** X24.  The linear policy without jitter: the delay of every attempt is
    computed and is at most [max_delay], and with a non-negative
    [base_delay] it does not decrease from one attempt to the next. *)
Theorem linear_delay_without_jitter (config : RetryConfig) (draw : Q) :
  strategy_eq (strategy config) "exponential_backoff" = false ->
  strategy_eq (strategy config) "linear_backoff" = true ->
  jitter config = false ->
  (forall n : nat,
     exists d, _calculate_delay config draw n = Return d /\ d <= max_delay config)
  /\ (0 <= base_delay config ->
      forall n m : nat, (n <= m)%nat ->
        exists earlier later,
          _calculate_delay config draw n = Return earlier
          /\ _calculate_delay config draw m = Return later
          /\ earlier <= later).
Proof.
  intros He Hl Hj. unfold _calculate_delay. rewrite He, Hl, Hj. split.
  - intros n. eexists. split; [reflexivity | apply Q.le_min_r].
  - intros Hbase n m Hnm. eexists _, _. split; [reflexivity|].
    split; [reflexivity|]. apply Q.min_le_compat_r.
    assert (inject_Z (Z.of_nat n) <= inject_Z (Z.of_nat m)).
    { rewrite <- Zle_Qle. lia. }
    nra.
Qed.

Lemma linear_delay_without_jitter_witness :
  (exists d, _calculate_delay linear_policy 0 9 = Return d
             /\ d <= max_delay linear_policy)
  /\ (exists earlier later,
        _calculate_delay linear_policy 0 1 = Return earlier
        /\ _calculate_delay linear_policy 0 2 = Return later
        /\ earlier <= later).
Proof.
  destruct (@linear_delay_without_jitter linear_policy 0 eq_refl eq_refl eq_refl)
    as [Hbound Hmono].
  split.
  - apply Hbound.
  - apply Hmono; [discriminate | lia].
Defined.

(** X25.  Jitter, for every strategy and attempt: the delay is computed
    exactly when it is computed without jitter (the only failure is the
    [OverflowError] of the exponential power, which comes before the
    jitter); a computed delay is never negative, so the sleep that follows
    cannot fail; and for a draw within 10% it stays within 10% of the delay
    the policy gives without jitter. *)
Theorem jittered_delay_band (config : RetryConfig) (draw : Q) (n : nat) :
  jitter config = true ->
  - 0.1 <= draw -> draw <= 0.1 ->
  (forall e, _calculate_delay config draw n = Raise e
             <-> _calculate_delay (without_jitter config) draw n = Raise e)
  /\ (forall e, _calculate_delay config draw n = Raise e ->
        e = OverflowError
        /\ strategy_eq (strategy config) "exponential_backoff" = true
        /\ Py.float_max < Qabs (Py.pow (backoff_factor config) n))
  /\ (forall d, _calculate_delay config draw n = Return d ->
        0 <= d
        /\ exists plain,
             _calculate_delay (without_jitter config) draw n = Return plain
             /\ (0 <= plain -> 0.9 * plain <= d /\ d <= 1.1 * plain)).
Proof.
  intros Hj Hlo Hhi. split; [|split].
  - intros e. unfold _calculate_delay, without_jitter.
    cbn [strategy base_delay max_delay jitter backoff_factor]. rewrite Hj.
    match goal with
    | |- match ?c with _ => _ end = _ <-> _ => destruct c
    end; split; intros H; (discriminate H || exact H).
  - intros e. apply calculate_delay_raises.
  - intros d. unfold _calculate_delay, without_jitter.
    cbn [strategy base_delay max_delay jitter backoff_factor]. rewrite Hj.
    match goal with
    | |- match ?c with _ => _ end = _ -> _ => destruct c as [plain|e]
    end; [|discriminate].
    intros H. injection H as <-.
    split; [apply Q.le_max_l|].
    exists plain. split; [reflexivity|]. intros Hd.
    destruct (Q.max_spec 0 (plain + draw * plain)) as [[Hlt Heq]|[Hle Heq]];
      rewrite Heq; split; nra.
Qed.

Lemma jittered_delay_band_witness :
  exists d plain,
    _calculate_delay (exponential_policy true 2) 0.05 3 = Return d
    /\ _calculate_delay (without_jitter (exponential_policy true 2)) 0.05 3
       = Return plain
    /\ 0 <= d /\ 0.9 * plain <= d /\ d <= 1.1 * plain.
Proof.
  destruct (@jittered_delay_band (exponential_policy true 2) 0.05 3 eq_refl)
    as (_ & _ & Hband); [discriminate | discriminate |].
  destruct (Hband (Qmax 0 (8 + 0.05 * 8))) as (Hpos & plain & Hplain & Hin).
  - vm_compute. reflexivity.
  - exists (Qmax 0 (8 + 0.05 * 8)), plain.
    split; [vm_compute; reflexivity|].
    split; [exact Hplain|].
    split; [exact Hpos|].
    apply Hin. vm_compute in Hplain. injection Hplain as <-. discriminate.
Defined.

(** X26.  A member of the [RetryStrategy] enumeration stored in [strategy],
    as [Config.get_retry_config] does, equals none of the strategy names:
    the delay is the fixed [base_delay] (with its jitter) for every
    attempt, whatever the member. *)
Theorem enum_strategy_means_fixed_delay (config : RetryConfig)
    (member : Config.RetryStrategy) (draw : Q) (n : nat) :
  strategy config = StrategyMember member ->
  _calculate_delay config draw n
  = Return (if jitter config
            then Qmax 0 (base_delay config + draw * base_delay config)
            else base_delay config).
Proof.
  intros H. unfold _calculate_delay. rewrite H. cbn [strategy_eq].
  now destruct (jitter config).
Qed.

Lemma enum_strategy_means_fixed_delay_witness :
  _calculate_delay get_retry_config 0.1 0 = _calculate_delay get_retry_config 0.1 7.
Proof.
  rewrite (@enum_strategy_means_fixed_delay get_retry_config
             Config.EXPONENTIAL_BACKOFF 0.1 0 eq_refl).
  rewrite (@enum_strategy_means_fixed_delay get_retry_config
             Config.EXPONENTIAL_BACKOFF 0.1 7 eq_refl).
  reflexivity.
Defined.

Lemma slept_delay_above_floor_witness :
  0.5 <= jittered_sleep (_calculate_adaptive_delay 0 6) (- 0.1).
Proof. apply (@slept_delay_above_floor 0%Z 6%Z (- 0.1)); discriminate. Defined.

(** ** Witnesses for the cache and the fetcher *)

Lemma get_after_put_witness :
  exists c1,
    put 10 10 "c" 3%nat (Some 60) sample_cache = (Return tt, c1)
    /\ fst (get 70 "c" c1) = Some 3%nat.
Proof.
  destruct (@get_after_put nat sample_cache 10 10 70 "c" 3%nat 60 sample_cache_wf)
    as (c1 & Hput & Hfresh & _); [reflexivity | discriminate |].
  exists c1. split; [exact Hput|].
  rewrite Hfresh; [reflexivity | discriminate].
Defined.

(** X28.  The sweep of [put] removes exactly the expired entries: what is
    left are the entries that have not expired at the time of the sweep, in
    their dictionary order. *)
Theorem sweep_removes_exactly_expired (V : Type) (now : Q) (d : odict V) :
  od_wf d ->
  _cleanup_expired now d = filter (fun kv => negb (is_expired now (snd kv))) d.
Proof. apply cleanup_expired_filter. Qed.

Lemma sweep_removes_exactly_expired_witness :
  _cleanup_expired stale_time (_data sample_cache)
  = [("b"%string, sample_entry 2 5)].
Proof.
  rewrite (@sweep_removes_exactly_expired nat stale_time _ sample_cache_wf).
  reflexivity.
Defined.


Lemma put_without_capacity_witness :
  put 1 1 "k" 7%nat None null_cache = (Raise KeyError, with_data null_cache []).
Proof. apply (@put_without_capacity nat null_cache 1 1 "k" 7%nat None). discriminate. Defined.

Lemma get_page_warnings_match_sleeps_witness :
  exists delays,
    slept (snd (get_page flaky_env "u" 10 true (new_client nat)))
      = slept (new_client nat) ++ delays
    /\ warning_delays (log (snd (get_page flaky_env "u" 10 true (new_client nat))))
       = warning_delays (log (new_client nat)) ++ delays.
Proof.
  apply (@get_page_warnings_match_sleeps nat flaky_env "u" 10%Z true (new_client nat)).
  reflexivity.
Defined.


Lemma failed_fetch_stores_nothing_witness :
  get_page dead_env "u" 10 true warm_client
    = (Return None, snd (get_page dead_env "u" 10 true warm_client))
  /\ od_lookup "a" (_data sample_cache) = Some (sample_entry 1 0).
Proof.
  assert (Hfail : get_page dead_env "u" 10 true warm_client
                  = (Return None, snd (get_page dead_env "u" 10 true warm_client)))
    by (vm_compute; reflexivity).
  split; [exact Hfail|].
  apply (@failed_fetch_stores_nothing nat dead_env "u" 10 true warm_client
           (snd (get_page dead_env "u" 10 true warm_client))
           sample_cache sample_cache "a" (sample_entry 1 0)).
  - reflexivity.
  - exact sample_cache_wf.
  - exact Hfail.
  - vm_compute; reflexivity.
  - reflexivity.
Defined.

Lemma get_page_without_attempts_witness :
  net_calls (snd (get_page flaky_env "u" 10 false lazy_client)) = net_calls lazy_client
  /\ fst (get_page flaky_env "u" 10 false lazy_client) = Return None.
Proof.
  destruct (@get_page_without_attempts nat flaky_env "u" 10%Z false lazy_client)
    as (Hn & _ & Hfail); [discriminate|].
  split; [exact Hn|]. now apply Hfail.
Defined.

Lemma fatal_status_is_not_retried_witness :
  exists s',
    get_page missing_env "u" 10 false (new_client nat) = (Return None, s')
    /\ net_calls s' = 1%nat
    /\ slept s' = slept (new_client nat)
    /\ failed_requests (metrics s') = (failed_requests (metrics (new_client nat)) + 1)%N.
Proof.
  apply (@fatal_status_is_not_retried nat missing_env "u" 10 (new_client nat)
           404 0%nat 0.5).
  - reflexivity.
  - reflexivity.
  - reflexivity.
  - lia.
  - cbn. intuition discriminate.
Defined.

